(** * factRuEval-2016: the evaluation matrix and its matching search

    A shallow embedding of [scripts/dialent/common/evalmatrix.py]
    (classes [TagData] and [EvaluationMatrix]) together with the
    properties of the matching search, and of the option handling of
    [scripts/t1_eval.py].

    Conventions of the embedding.
    - numpy's float matrix entries, qualities and F1 values are exact
      rationals ([Q]); [==], [!=], [<] and [>] on them are [Qeq_bool]
      and [Qlt_bool].  Rounding is not modelled: the theorems on the
      result of the search hold of every leaf of the search tree,
      whichever of two F1 values compares greater.
    - The interpreter's limit on nested calls is not modelled; the
      theorems on the search are about the calls that return.
    - Python dictionaries ([self.s], [self.t], [self.metrics]) are
      [gmap string _].
    - An exception is a value of [exn]; a function that can raise
      returns [res _].  Python's [None] is [None] of an [option].
    - Index lists handed to the search are drawn from [range(n_std)] and
      [range(n_test)] and every dictionary key is one of [allowed_tags];
      subscripts on them are therefore written with total lookups, and
      the lemmas [search_in_range] and [init_s_lookup] record that they
      stay in range. *)

From Stdlib Require Import QArith.
From stdpp Require Import gmap strings list fin_maps sorting.

Local Open Scope string_scope.
Local Open Scope list_scope.

(** ** Exceptions *)

Inductive exn : Type :=
| AssertionError
| TypeError.

Inductive res (A : Type) : Type :=
| Ok (a : A)
| Raise (e : exn).
Arguments Ok {A} a.
Arguments Raise {A} e.

#[global] Instance res_ret : MRet res := λ A a, Ok a.

#[global] Instance res_bind : MBind res := λ A B k c,
  match c with
  | Ok a => k a
  | Raise e => Raise e
  end.

#[global] Instance res_fmap : FMap res := λ A B f c,
  match c with
  | Ok a => Ok (f a)
  | Raise e => Raise e
  end.

(** A [for] loop whose body may raise. *)
Fixpoint for_each {A S : Type} (body : S → A → res S) (l : list A) (st : S)
  : res S :=
  match l with
  | [] => Ok st
  | x :: l' => st' ← body st x ; for_each body l' st'
  end.

(** ** Numbers *)

Definition Qlt_bool (x y : Q) : bool :=
  (Qnum x * QDen y <? Qnum y * QDen x)%Z.

#[global] Instance Q_inhabited : Inhabited Q := populate 0%Q.

Definition Q_of_nat (n : nat) : Q := inject_Z (Z.of_nat n).

(** ** Annotated objects and the scorer *)

(** What the matrix reads of an object: [x.tag] and [x.id]. *)
Class AnnotatedObject (Obj : Type) : Type := {
  tag : Obj → string;
  id : Obj → Z
}.

(** The [calc] argument: an object with [priority] and [quality]. *)
Record Calculator (Obj : Type) : Type := {
  priority : Obj → Obj → Q;
  quality : Obj → Obj → Q
}.
Arguments priority {Obj} _ _ _.
Arguments quality {Obj} _ _ _.

(** ** Metrics *)

Record Metrics : Type := {
  precision : Q;
  recall : Q;
  f1 : Q
}.

(** Modelled from the spec: [Metrics.createSimple] of
    [dialent/common/metrics.py], which is not part of the sources at
    hand.  [precision = tp/n_test] (0 if [n_test = 0]),
    [recall = tp/n_std] (0 if [n_std = 0]), [f1 = 0] if [tp = 0], else
    the harmonic mean of precision and recall. *)
Definition createSimple (tp : Q) (n_std n_test : nat) : Metrics :=
  let p := if (n_test =? 0)%nat then 0%Q else (tp / Q_of_nat n_test)%Q in
  let r := if (n_std =? 0)%nat then 0%Q else (tp / Q_of_nat n_std)%Q in
  {| precision := p;
     recall := r;
     f1 := if Qeq_bool tp 0 then 0%Q else (2 * p * r / (p + r))%Q |}.

(** ** TagData *)

Module TagData.
Section TagData.
Context {Obj : Type} `{AnnotatedObject Obj}.

Record t : Type := {
tag_ : string;
objects : list Obj;
size : nat;
_start : nat
}.

(** [sorted(l, key=lambda x: x.id)]: a stable sort by [id]. *)
Fixpoint insert_by_id (x : Obj) (l : list Obj) : list Obj :=
match l with
| [] => [x]
| y :: l' =>
    if (id x <=? id y)%Z then x :: y :: l' else y :: insert_by_id x l'
end.

Definition sorted_by_id (l : list Obj) : list Obj :=
foldr insert_by_id [] l.

(** [TagData.__init__] *)
Definition init (tg : string) (object_list : list Obj) : t :=
let objs :=
  sorted_by_id (List.filter (λ x, String.eqb (tag x) tg) object_list) in
{| tag_ := tg; objects := objs; size := length objs; _start := 0 |}.

Definition start (d : t) : nat := _start d.

Definition end_ (d : t) : nat := _start d + size d.

(** The assignment [d._start = v]. *)
Definition set_start (v : nat) (d : t) : t :=
{| tag_ := tag_ d; objects := objects d; size := size d; _start := v |}.

#[global] Instance t_inhabited : Inhabited t :=
populate {| tag_ := ""; objects := []; size := 0; _start := 0 |}.
End TagData.
Arguments t Obj : clear implicits.
End TagData.

(** ** EvaluationMatrix *)

Definition allowed_tags : list string := ["per"; "loc"; "org"; "locorg"].

Record EvaluationMatrix (Obj : Type) : Type := {
  mode : string;
  metrics : gmap string Metrics;
  s : gmap string (TagData.t Obj);
  t : gmap string (TagData.t Obj);
  std : list Obj;
  test : list Obj;
  n_std : nat;
  n_test : nat;
  m : list (list Q);
  calc : Calculator Obj
}.
Arguments mode {Obj} _.
Arguments metrics {Obj} _.
Arguments s {Obj} _.
Arguments t {Obj} _.
Arguments std {Obj} _.
Arguments test {Obj} _.
Arguments n_std {Obj} _.
Arguments n_test {Obj} _.
Arguments m {Obj} _.
Arguments calc {Obj} _.

(** A matching, and the value [_recursiveSearch] hands back: the tuple
    [(f1, pairs)], or Python's [None]. *)
Definition pairing : Type := list (nat * nat).
Definition search_result : Type := option (Q * pairing).

Section Matrix.
Context {Obj : Type} `{AnnotatedObject Obj}.

(** First loop of [__init__]: one [TagData] per allowed tag. *)
Definition load_tags (object_list : list Obj) : gmap string (TagData.t Obj) :=
  foldl (λ d tg, <[tg := TagData.init tg object_list]> d) ∅ allowed_tags.

(** Second loop of [__init__] ("finalize the offsets"). *)
Definition finalize_offsets (d : gmap string (TagData.t Obj))
  : gmap string (TagData.t Obj) :=
  foldl (λ d i,
           let prev_tag := allowed_tags !!! (i - 1)%nat in
           let tg := allowed_tags !!! i in
           <[tg := TagData.set_start (TagData.end_ (d !!! prev_tag)) (d !!! tg)]> d)
        d (seq 1 (length allowed_tags - 1)).

(** Third loop of [__init__]: the reordered array. *)
Definition reorder (d : gmap string (TagData.t Obj)) : list Obj :=
  foldl (λ acc tg, acc ++ TagData.objects (d !!! tg)) [] allowed_tags.

(** The priority matrix, filled row by row. *)
Definition build_matrix (c : Calculator Obj) (xs ys : list Obj)
  : list (list Q) :=
  (λ x, (λ y, priority c x y) <$> ys) <$> xs.

(** The statements of [EvaluationMatrix.__init__] after the assertion
    on the mode. *)
Definition construct (std0 test0 : list Obj) (c : Calculator Obj)
    (md : string) : EvaluationMatrix Obj :=
  let s' := finalize_offsets (load_tags std0) in
  let t' := finalize_offsets (load_tags test0) in
  let std' := reorder s' in
  let test' := reorder t' in
  {| mode := md;
     metrics := ∅;
     s := s';
     t := t';
     std := std';
     test := test';
     n_std := length std';
     n_test := length test';
     m := build_matrix c std' test';
     calc := c |}.

(** [EvaluationMatrix.__init__] *)
Definition init (std0 test0 : list Obj) (c : Calculator Obj) (md : string)
  : res (EvaluationMatrix Obj) :=
  if negb (String.eqb md "regular" || String.eqb md "simple")
  then Raise AssertionError
  else Ok (construct std0 test0 c md).

Variable self : EvaluationMatrix Obj.

(** [self.m[i, j]].  The search only subscripts the matrix at
    positions of the reordered arrays ([search_in_range]); outside of
    them, where numpy would raise, the value here is 0. *)
Definition m_at (i j : nat) : Q := (m self !!! i) !!! j.

(** [self.calc.quality(self.std[pair[0]], self.test[pair[1]])];
    0 for a pair that is not made of two positions of the arrays. *)
Definition pair_quality (pair : nat * nat) : Q :=
  match std self !! pair.1, test self !! pair.2 with
  | Some x, Some y => quality (calc self) x y
  | _, _ => 0%Q
  end.

(** [_reduce] *)
Definition _reduce (matching : pairing) (tg : string) : pairing :=
  List.filter
    (λ p, (TagData.start (s self !!! tg) <=? p.1)%nat
          && (p.1 <? TagData.end_ (s self !!! tg))%nat)
    matching.

(** The true-positive total accumulated by the loop of [_evaluate]. *)
Definition tp_of (subset : pairing) : Q :=
  foldl (λ tp pair, (tp + pair_quality pair)%Q) 0%Q subset.

(** [_evaluate]; the default of [tag_filter] is the empty string. *)
Definition _evaluate (pairs : pairing) (tag_filter : string) : Metrics :=
  if bool_decide (tag_filter ∈ allowed_tags)
  then createSimple (tp_of (_reduce pairs tag_filter))
                    (TagData.size (s self !!! tag_filter))
                    (TagData.size (t self !!! tag_filter))
  else createSimple (tp_of pairs) (n_std self) (n_test self).

(** [_findMatches] *)
Definition _findMatches (s_index : nat) (tests : list nat) : list nat :=
  let perfect_matches :=
    List.filter (λ t, Qeq_bool (m_at s_index t) 1) tests in
  let matches :=
    List.filter (λ t, negb (Qeq_bool (m_at s_index t) 0)) tests in
  if (0 <? length perfect_matches)%nat then perfect_matches else matches.

(** [test.index(t)]: the position of the first occurrence.  It is
    only asked for a [t] taken from [test] by [_findMatches]; for an
    absent value, where Python raises, the result is the length. *)
Fixpoint index (x : nat) (l : list nat) : nat :=
  match l with
  | [] => 0
  | y :: l' => if (y =? x)%nat then 0 else S (index x l')
  end.

(** The loop [for k in std] of [_recursiveSearch]; its state is
    [(skip_test_object, alt_count, pair_max_alternatives)]. *)
Definition scan_std (curr t : nat) (stds : list nat)
    (pair_max_alternatives : nat) : bool * nat * nat :=
  foldl (λ '(skip_test_object, alt_count, pma) k,
           let skip' :=
             if Qeq_bool (m_at k t) 1 && Qlt_bool (m_at curr t) 1
             then true else skip_test_object in
           let alt' :=
             if negb (Qeq_bool (m_at k t) 0) then S alt_count
             else alt_count in
           let pma' := if (pma <? alt')%nat then alt' else pma in
           (skip', alt', pma'))
        (false, 0%nat, pair_max_alternatives) stds.

(** [if max_res is None or res[0] > max_res[0]: max_res = res].
    With [max_res] set, subscripting a [res] that is [None] raises. *)
Definition update_max (max_res r : search_result) : res search_result :=
  match max_res with
  | None => Ok r
  | Some (fm, _) =>
      match r with
      | None => Raise TypeError
      | Some (fr, _) => Ok (if Qlt_bool fm fr then r else max_res)
      end
  end.

(** Local variables of one call of [_recursiveSearch]. *)
Record frame : Type := {
  max_res : search_result;
  possible_pairs_count : nat;
  pair_max_alternatives : nat
}.

Definition frame0 : frame :=
  {| max_res := None; possible_pairs_count := 0;
     pair_max_alternatives := 0 |}.

(** The condition guarding the search that ignores [curr]. *)
Definition skip_guard (fr : frame) : bool :=
  (possible_pairs_count fr =? 0)%nat
  || ((possible_pairs_count fr =? 1)%nat
      && (1 <? pair_max_alternatives fr)%nat).

(** One iteration of [for t in self._findMatches(curr, test)], given
    the recursive call on [std[1:]]. *)
Definition try_candidate
    (rec : list nat → pairing → res search_result)
    (curr : nat) (stds tests : list nat) (pairs : pairing)
    (fr : frame) (t : nat) : res frame :=
  let i := index t tests in
  let '(skip_test_object, _, pma) :=
    scan_std curr t stds (pair_max_alternatives fr) in
  let fr' := {| max_res := max_res fr;
                possible_pairs_count := S (possible_pairs_count fr);
                pair_max_alternatives := pma |} in
  if skip_test_object then Ok fr'
  else
    r ← rec (take i tests ++ drop (S i) tests) (pairs ++ [(curr, t)]) ;
    mr ← update_max (max_res fr') r ;
    Ok {| max_res := mr;
          possible_pairs_count := possible_pairs_count fr';
          pair_max_alternatives := pair_max_alternatives fr' |}.

(** The whole loop [for t in self._findMatches(curr, test)], from the
    initial values of the three local variables. *)
Definition candidates_loop
    (rec : list nat → pairing → res search_result)
    (curr : nat) (stds tests : list nat) (pairs : pairing) : res frame :=
  for_each (try_candidate rec curr stds tests pairs)
           (_findMatches curr tests) frame0.

(** [_recursiveSearch] *)
Fixpoint _recursiveSearch (stds tests : list nat) (pairs : pairing)
  {struct stds} : res search_result :=
  match stds with
  | [] => Ok (Some (f1 (_evaluate pairs ""), pairs))
  | curr :: rest =>
      if (length tests =? 0)%nat
      then Ok (Some (f1 (_evaluate pairs ""), pairs))
      else
        fr ← candidates_loop (_recursiveSearch rest) curr (curr :: rest)
                             tests pairs ;
        if skip_guard fr
        then
          r ← _recursiveSearch rest tests pairs ;
          update_max (max_res fr) r
        else Ok (max_res fr)
  end.

(** *** The search tree, described

    The notions below restate what one call of [_recursiveSearch]
    looks at; the theorems relate them to the loops above. *)

(** [t] is reserved for a perfect partner: some remaining standard
    index has priority 1 with [t] while [curr] has less. *)
Definition reserved (curr t : nat) (stds : list nat) : bool :=
  existsb (λ k, Qeq_bool (m_at k t) 1) stds && Qlt_bool (m_at curr t) 1.

(** How many remaining standard indices have a nonzero priority
    with [t]. *)
Definition alternatives (t : nat) (stds : list nat) : nat :=
  length (List.filter (λ k, negb (Qeq_bool (m_at k t) 0)) stds).

(** The candidates of [curr] that are not reserved. *)
Definition surviving (curr : nat) (stds tests : list nat) : list nat :=
  List.filter (λ t, negb (reserved curr t stds)) (_findMatches curr tests).

(** [test[:i] + test[i+1:]] for [i = test.index(t)]. *)
Definition without (t : nat) (tests : list nat) : list nat :=
  take (index t tests) tests ++ drop (S (index t tests)) tests.

(** When the search that ignores [curr] is run: [curr] has no
    candidate, or a single one whose test object has more than one
    alternative. *)
Definition skip_allowed (curr : nat) (stds tests : list nat) : bool :=
  match _findMatches curr tests with
  | [] => true
  | [t] => (1 <? alternatives t stds)%nat
  | _ => false
  end.

(** [explored stds tests pairs leaf]: [leaf] is the pairing evaluated
    at a leaf of the search started from [(stds, tests, pairs)]. *)
Inductive explored : list nat → list nat → pairing → pairing → Prop :=
| explored_no_std tests pairs :
    explored [] tests pairs pairs
| explored_no_test stds pairs :
    explored stds [] pairs pairs
| explored_commit curr rest tests pairs t leaf :
    tests ≠ [] →
    t ∈ surviving curr (curr :: rest) tests →
    explored rest (without t tests) (pairs ++ [(curr, t)]) leaf →
    explored (curr :: rest) tests pairs leaf
| explored_skip curr rest tests pairs leaf :
    tests ≠ [] →
    skip_allowed curr (curr :: rest) tests = true →
    explored rest tests pairs leaf →
    explored (curr :: rest) tests pairs leaf.

(** The leaves reached by committing [curr] to a candidate of
    [cands] that is not reserved, [L t] being the leaves below the
    commitment to [t]. *)
Definition committed (curr : nat) (stds : list nat)
    (L : nat → pairing → Prop) (cands : list nat) (p : pairing) : Prop :=
  ∃ t, t ∈ cands ∧ reserved curr t stds = false ∧ L t p.

(** The overall F1 of a pairing. *)
Definition overall_f1 (pairs : pairing) : Q := f1 (_evaluate pairs "").

(** [r] is a best leaf among those satisfying [L] (or [None] when
    there is none). *)
Definition best_of (L : pairing → Prop) (r : search_result) : Prop :=
  match r with
  | None => ∀ p, ¬ L p
  | Some (f, p) =>
      L p ∧ f = overall_f1 p ∧ ∀ p', L p' → (overall_f1 p' <= f)%Q
  end.

(** A pairing that uses every index at most once, pairs only objects
    of nonzero priority, and keeps the perfect-match mandate in its
    strongest reading: an imperfect pair uses no object that has a
    perfect partner anywhere, and every perfect pair of the matrix has
    one of its two objects in a perfect pair of the pairing. *)
Definition in_range (p : nat * nat) : bool :=
  (p.1 <? n_std self)%nat && (p.2 <? n_test self)%nat.

Definition gate_ok (p : nat * nat) : bool :=
  negb (Qeq_bool (m_at p.1 p.2) 0).

Definition has_perfect_partner_std (s : nat) : bool :=
  existsb (λ t, Qeq_bool (m_at s t) 1) (seq 0 (n_test self)).

Definition has_perfect_partner_test (t : nat) : bool :=
  existsb (λ s, Qeq_bool (m_at s t) 1) (seq 0 (n_std self)).

Definition imperfect_pair_ok (p : nat * nat) : bool :=
  Qeq_bool (m_at p.1 p.2) 1
  || (negb (has_perfect_partner_std p.1)
      && negb (has_perfect_partner_test p.2)).

Definition perfect_pair_served (pairs : pairing) (s t : nat) : bool :=
  negb (Qeq_bool (m_at s t) 1)
  || existsb (λ p, ((p.1 =? s)%nat || (p.2 =? t)%nat)
                   && Qeq_bool (m_at p.1 p.2) 1) pairs.

Definition mandate_ok (pairs : pairing) : bool :=
  forallb imperfect_pair_ok pairs
  && forallb (λ s, forallb (perfect_pair_served pairs s)
                           (seq 0 (n_test self)))
             (seq 0 (n_std self)).

Definition admissible (pairs : pairing) : bool :=
  bool_decide (NoDup pairs.*1) && bool_decide (NoDup pairs.*2)
  && forallb in_range pairs && forallb gate_ok pairs
  && mandate_ok pairs.

(** The assignments to [self.metrics] made by [findSolution]. *)
Definition record_metrics (matching : pairing) : EvaluationMatrix Obj :=
  let mt := <["overall" := _evaluate matching ""]> (metrics self) in
  let mt := foldl (λ mt tg, <[tg := _evaluate matching tg]> mt)
                  mt allowed_tags in
  {| mode := mode self; metrics := mt; s := s self; t := t self;
     std := std self; test := test self; n_std := n_std self;
     n_test := n_test self; m := m self; calc := calc self |}.

(** [findSolution]: the matrix with its [metrics] filled in, and the
    matching.  Unpacking [q, matching] from [None] raises. *)
Definition findSolution : res (EvaluationMatrix Obj * pairing) :=
  r ← _recursiveSearch (seq 0 (n_std self)) (seq 0 (n_test self)) [] ;
  match r with
  | None => Raise TypeError
  | Some (q, matching) => Ok (record_metrics matching, matching)
  end.
End Matrix.

Arguments explored {Obj} self _ _ _ _.

(** The partition laid down by [__init__] on one side (standard or
    test): [arr] holds exactly the objects of [input] with an allowed
    tag; the block of each tag is [arr[start:end]], holds objects of
    that tag only and is sorted by [id]; the blocks lie end to end in
    the order of [allowed_tags] and fill [arr]. *)
Section Partition.
Context {Obj : Type} `{AnnotatedObject Obj}.

Definition recognized (x : Obj) : bool :=
  bool_decide (tag x ∈ allowed_tags).

(** The objects of one tag, as [TagData.__init__] selects them. *)
Definition tagged (tg : string) (l : list Obj) : list Obj :=
  TagData.sorted_by_id (List.filter (λ x, String.eqb (tag x) tg) l).

(** The [TagData] of a tag once its offset is finalized. *)
Definition tag_data (tg : string) (start : nat) (l : list Obj)
  : TagData.t Obj :=
  {| TagData.tag_ := tg; TagData.objects := tagged tg l;
     TagData.size := length (tagged tg l); TagData._start := start |}.

Definition block (d : gmap string (TagData.t Obj)) (arr : list Obj)
    (tg : string) : list Obj :=
  take (TagData.size (d !!! tg)) (drop (TagData.start (d !!! tg)) arr).

Definition in_block (d : gmap string (TagData.t Obj)) (tg : string)
    (i : nat) : Prop :=
  TagData.start (d !!! tg) ≤ i < TagData.end_ (d !!! tg).

Record well_partitioned (input : list Obj)
    (d : gmap string (TagData.t Obj)) (arr : list Obj) : Prop := {
  wp_members : arr ≡ₚ List.filter recognized input;
  wp_keys : ∀ tg, tg ∈ allowed_tags → is_Some (d !! tg);
  wp_block : ∀ tg, tg ∈ allowed_tags →
    block d arr tg = TagData.objects (d !!! tg)
    ∧ TagData.size (d !!! tg) = length (TagData.objects (d !!! tg))
    ∧ Forall (λ x, tag x = tg) (block d arr tg)
    ∧ Sorted (λ x y, (id x <= id y)%Z) (block d arr tg);
  wp_first : TagData.start (d !!! "per") = 0;
  wp_adjacent : ∀ i, i < 3 →
    TagData.end_ (d !!! (allowed_tags !!! i))
    = TagData.start (d !!! (allowed_tags !!! S i));
  wp_last : TagData.end_ (d !!! "locorg") = length arr;
  wp_cover : ∀ i, i < length arr → ∃ tg, tg ∈ allowed_tags ∧ in_block d tg i;
  wp_disjoint : ∀ i tg1 tg2, tg1 ∈ allowed_tags → tg2 ∈ allowed_tags →
    in_block d tg1 i → in_block d tg2 i → tg1 = tg2
}.
End Partition.


(** ** Concrete inputs *)

Module Fixtures.
(** A mention with a tag and an id; the id doubles as the key into
    the score tables below. *)
Record mention : Type := { m_tag : string; m_id : Z }.

#[global] Instance mention_obj : AnnotatedObject mention :=
  {| tag := m_tag; id := m_id |}.

Definition per (i : Z) : mention := {| m_tag := "per"; m_id := i |}.

(** A scorer that reads fixed tables at the ids of its arguments. *)
Definition table (rows : list (list Q)) (x y : mention) : Q :=
  (rows !!! Z.to_nat (m_id x)) !!! Z.to_nat (m_id y).

Definition table_calc (prio qual : list (list Q)) : Calculator mention :=
  {| priority := table prio; quality := table qual |}.

(** Three standard and two test persons; standard 0 has two imperfect
    candidates, each of which is the perfect partner of another
    standard object. *)
Definition reserved_prio : list (list Q) :=
  [[1#2; 1#2]; [1; 0]; [0; 1]]%Q.

Definition reserved_em : EvaluationMatrix mention :=
  construct [per 0; per 1; per 2] [per 0; per 1]
            (table_calc reserved_prio reserved_prio) "regular".

(** Three standard and two test persons without any perfect pair;
    quality equals priority. *)
Definition greedy_prio : list (list Q) :=
  [[1#10; 1#10]; [9#10; 0]; [0; 9#10]]%Q.

Definition greedy_em : EvaluationMatrix mention :=
  construct [per 0; per 1; per 2] [per 0; per 1]
            (table_calc greedy_prio greedy_prio) "regular".

(** Two standard persons and one test person: standard 0 is the only
    perfect partner of test 0, standard 1 an imperfect one of higher
    quality. *)
Definition sole_prio : list (list Q) := [[1]; [1#2]]%Q.
Definition sole_qual : list (list Q) := [[1#10]; [9#10]]%Q.

Definition sole_em : EvaluationMatrix mention :=
  construct [per 0; per 1] [per 0] (table_calc sole_prio sole_qual)
            "regular".

(** Four standard and three test persons, quality equal to priority:
    standard 0 is the only perfect partner of test 0. *)
Definition crowded_prio : list (list Q) :=
  [[1; 0; 0]; [1#2; 1#10; 1#10]; [0; 9#10; 0]; [0; 0; 9#10]]%Q.

Definition crowded_em : EvaluationMatrix mention :=
  construct [per 0; per 1; per 2; per 3] [per 0; per 1; per 2]
            (table_calc crowded_prio crowded_prio) "regular".

(** Three standard and two test persons without any perfect pair and
    with scores that binary floating point represents exactly; quality
    equals priority.  Standard 0 is a weak partner of both test objects,
    each of which has a strong partner further down. *)
Definition blocked_prio : list (list Q) :=
  [[1#4; 1#4]; [3#4; 0]; [0; 3#4]]%Q.

Definition blocked_em : EvaluationMatrix mention :=
  construct [per 0; per 1; per 2] [per 0; per 1]
            (table_calc blocked_prio blocked_prio) "regular".

(** Two standard and two test persons: test 0 is an imperfect partner
    of standard 0 and the perfect partner of standard 1. *)
Definition later_prio : list (list Q) := [[1#2; 1#2]; [1; 0]]%Q.

Definition later_em : EvaluationMatrix mention :=
  construct [per 0; per 1] [per 0; per 1]
            (table_calc later_prio later_prio) "regular".

(** Two standard and two test persons: test 0 is the perfect partner
    of both standard objects, test 1 an imperfect partner of standard
    1 only. *)
Definition shared_prio : list (list Q) := [[1; 0]; [1; 1#2]]%Q.

Definition shared_em : EvaluationMatrix mention :=
  construct [per 0; per 1] [per 0; per 1]
            (table_calc shared_prio shared_prio) "regular".

(** Two standard and two test persons: standard 0 and test 0 are a
    perfect pair and test 0 has no other partner at all. *)
Definition isolated_prio : list (list Q) := [[1; 1#2]; [0; 1#2]]%Q.

Definition isolated_em : EvaluationMatrix mention :=
  construct [per 0; per 1] [per 0; per 1]
            (table_calc isolated_prio isolated_prio) "regular".


Definition locorg_calc : Calculator mention := table_calc [[1%Q]] [[1%Q]].


(** A mixed collection, with an unrecognized tag and a repeated id. *)
Definition mixed : list mention :=
  [ {| m_tag := "org"; m_id := 7 |}; {| m_tag := "per"; m_id := 5 |};
    {| m_tag := "date"; m_id := 1 |}; {| m_tag := "per"; m_id := 2 |};
    {| m_tag := "locorg"; m_id := 2 |}; {| m_tag := "per"; m_id := 5 |} ].

Definition mixed_em : EvaluationMatrix mention :=
  construct mixed [per 1] (table_calc [] []) "simple".

(** A standard collection without any recognized tag. *)
Definition stray : list mention := [{| m_tag := "date"; m_id := 4 |}].

Definition stray_em : EvaluationMatrix mention :=
  construct stray [per 1] (table_calc [] []) "regular".

(** The matching of a result of [findSolution]. *)
Definition matching_of {Obj : Type}
    (r : res (EvaluationMatrix Obj * pairing)) : res pairing :=
  snd <$> r.
End Fixtures.

(** ** Further notions on the matrix *)

Section MatrixChecks.
Context {Obj : Type} (self : EvaluationMatrix Obj).

(** An imperfect pair does not take the test object of a perfect pair
    that a standard object of greater index could form. *)
Definition spares_later (p : nat * nat) : Prop :=
  Qlt_bool (m_at self p.1 p.2) 1 = true →
  ∀ k, p.1 < k < n_std self → Qeq_bool (m_at self k p.2) 1 = false.

End MatrixChecks.

(** ** The command line of [t1_eval.py] *)

Module T1Eval.

(** How a run of [main] ends: [sys.exit(code)], a failed [assert], or
    the call [e.evaluate(std_path, test_path, is_locorg_allowed)] on a
    fresh [Evaluator], which is outside of these sources. *)
Inductive outcome : Type :=
| SystemExit (code : option nat)
| AssertionFailed (message : string)
| Evaluate (std_path test_path : string) (is_locorg_allowed : bool).

(** The double quote character, as a string. *)
Definition dquote : string := String (Ascii.ascii_of_nat 34) EmptyString.

(** The lines printed by [usage]. *)
Definition usage : list string :=
  [ "Usage:";
    "<Python3 executable> t1_eval.py -s <std_dir> -t <test_dir> [-l]";
    "    -s [std_dir]    - path to the standard files directory";
    "    -t [test_dir]   - path to the response files directory";
    String.append "    -l              - if included, disables "
      (String.append dquote
         (String.append "locorg"
            (String.append dquote " mention evaluation")));
    "                      (such mentions will be considered locations)";
    "    -h              - display this message" ].

(** The three local variables of [main]. *)
Record settings : Type := {
  is_locorg_allowed : bool;
  std_path : option string;
  test_path : option string
}.

Definition settings0 : settings :=
  {| is_locorg_allowed := true; std_path := None; test_path := None |}.

(** The loop [for o, a in opts]: the settings at its end, or the lines
    printed and the way the run ended inside of it. *)
Fixpoint scan_opts (opts : list (string * string)) (st : settings)
  : settings + list string * outcome :=
  match opts with
  | [] => inl st
  | (o, a) :: opts' =>
      if String.eqb o "-l" then
        scan_opts opts' {| is_locorg_allowed := false;
                           std_path := std_path st;
                           test_path := test_path st |}
      else if String.eqb o "-h" then inr (usage, SystemExit None)
      else if String.eqb o "-s" then
        scan_opts opts' {| is_locorg_allowed := is_locorg_allowed st;
                           std_path := Some a;
                           test_path := test_path st |}
      else if String.eqb o "-t" then
        scan_opts opts' {| is_locorg_allowed := is_locorg_allowed st;
                           std_path := std_path st;
                           test_path := Some a |}
      else inr ([], AssertionFailed "unhandled option")
  end.

Definition paths_message : string :=
  "Stnadard and test paths must be set(see python t1_eval.py -h)".

(** [main], from what [getopt.getopt(sys.argv[1:], 's:t:hl')] gave: the
    text of a [GetoptError], or the list [opts].  The result is the
    lines printed and the way the run ends. *)
Definition main (parsed : string + list (string * string))
  : list string * outcome :=
  match parsed with
  | inl err => (err :: usage, SystemExit (Some 2))
  | inr opts =>
      match scan_opts opts settings0 with
      | inr ended => ended
      | inl st =>
          match std_path st, test_path st with
          | Some sp, Some tp => ([], Evaluate sp tp (is_locorg_allowed st))
          | _, _ => ([], AssertionFailed paths_message)
          end
      end
  end.

(** The options [getopt] can hand back for ['s:t:hl']. *)
Definition known (o : string) : Prop := o ∈ ["-l"; "-h"; "-s"; "-t"].


End T1Eval.

(** * Properties *)

(** ** Rationals and the exception monad *)

Lemma Qlt_bool_iff (x y : Q) : Qlt_bool x y = true ↔ (x < y)%Q.
Proof. unfold Qlt_bool, Qlt. apply Z.ltb_lt. Qed.

Lemma Qlt_bool_false (x y : Q) : Qlt_bool x y = false ↔ (y <= x)%Q.
Proof. unfold Qlt_bool, Qle. apply Z.ltb_ge. Qed.

Lemma Qeq_bool_true_nonzero (x : Q) :
  Qeq_bool x 1 = true → Qeq_bool x 0 = false.
Proof.
  intros Hx. apply Qeq_bool_iff in Hx.
  destruct (Qeq_bool x 0) eqn:E; [|done].
  apply Qeq_bool_iff in E. rewrite E in Hx. discriminate Hx.
Qed.

Lemma bind_Ok {A B : Type} (c : res A) (k : A → res B) (b : B) :
  c ≫= k = Ok b → ∃ a, c = Ok a ∧ k a = Ok b.
Proof. destruct c as [a|e]; [eauto | discriminate]. Qed.

(** ** Construction *)

(** Case analysis on [H : tg ∈ allowed_tags]. *)
Ltac tag_cases H :=
  unfold allowed_tags in H;
  repeat (apply elem_of_cons in H as [->|H]);
  try (by apply elem_of_nil in H).

Ltac tag_proj :=
  unfold TagData.end_, TagData.start, tag_data;
  cbn [TagData.size TagData._start TagData.objects].

(** Lookups of the four fixed keys in a dictionary built by inserts. *)
Ltac tag_lookup :=
  repeat first
    [ rewrite lookup_total_insert_eq
    | rewrite lookup_total_insert_ne by done
    | rewrite lookup_insert_eq
    | rewrite lookup_insert_ne by done ].

Section InitFacts.
Context {Obj : Type} `{AnnotatedObject Obj}.
Implicit Types (l : list Obj) (x y : Obj).

Lemma insert_by_id_perm x l : TagData.insert_by_id x l ≡ₚ x :: l.
Proof.
  induction l as [|y l IH]; simpl; [done|].
  destruct (id x <=? id y)%Z; [done|].
  rewrite IH. apply Permutation_swap.
Qed.

Lemma sorted_by_id_perm l : TagData.sorted_by_id l ≡ₚ l.
Proof.
  induction l as [|x l IH]; simpl; [done|].
  rewrite insert_by_id_perm. by f_equiv.
Qed.

Lemma insert_by_id_sorted x l :
  Sorted (λ a b, (id a <= id b)%Z) l →
  Sorted (λ a b, (id a <= id b)%Z) (TagData.insert_by_id x l).
Proof.
  induction 1 as [|y l Hs IH Hhd]; simpl.
  - by repeat constructor.
  - destruct (id x <=? id y)%Z eqn:E.
    + apply Z.leb_le in E. by repeat constructor.
    + apply Z.leb_gt in E. constructor; [done|].
      destruct Hhd as [|z l Hz]; simpl.
      * constructor. lia.
      * destruct (id x <=? id z)%Z; constructor; lia.
Qed.

Lemma sorted_by_id_sorted l :
  Sorted (λ a b, (id a <= id b)%Z) (TagData.sorted_by_id l).
Proof.
  induction l as [|x l IH]; simpl; [constructor|].
  by apply insert_by_id_sorted.
Qed.

Lemma tagged_tag tg l : Forall (λ x, tag x = tg) (tagged tg l).
Proof.
  unfold tagged. rewrite sorted_by_id_perm.
  apply Forall_forall. intros x Hx.
  apply list_elem_of_In, filter_In in Hx as [_ Hx].
  by apply String.eqb_eq.
Qed.

Lemma finalize_load l :
  finalize_offsets (load_tags l)
  = <["locorg" := tag_data "locorg"
        (length (tagged "per" l) + length (tagged "loc" l)
         + length (tagged "org" l)) l]>
    (<["org" := tag_data "org"
        (length (tagged "per" l) + length (tagged "loc" l)) l]>
    (<["loc" := tag_data "loc" (length (tagged "per" l)) l]>
    (<["per" := tag_data "per" 0 l]> ∅))).
Proof.
  unfold finalize_offsets, load_tags, allowed_tags. cbn. tag_lookup.
  unfold TagData.set_start, TagData.end_, TagData.init, tag_data, tagged.
  cbn. apply map_eq. intros k.
  rewrite !lookup_insert. repeat case_decide; simplify_eq; done.
Qed.

Lemma reorder_finalize_load l :
  reorder (finalize_offsets (load_tags l))
  = tagged "per" l ++ tagged "loc" l ++ tagged "org" l ++ tagged "locorg" l.
Proof.
  rewrite finalize_load. unfold reorder, allowed_tags. cbn. tag_lookup.
  cbn. by rewrite <- !app_assoc.
Qed.

Lemma recognized_perm l :
  tagged "per" l ++ tagged "loc" l ++ tagged "org" l ++ tagged "locorg" l
  ≡ₚ List.filter recognized l.
Proof.
  unfold tagged. rewrite !sorted_by_id_perm.
  induction l as [|x l IH]; [done|]. cbn [List.filter].
  unfold recognized at 1, allowed_tags.
  destruct (String.eqb_spec (tag x) "per") as [E1|E1];
    destruct (String.eqb_spec (tag x) "loc") as [E2|E2];
    destruct (String.eqb_spec (tag x) "org") as [E3|E3];
    destruct (String.eqb_spec (tag x) "locorg") as [E4|E4];
    try (rewrite E1 in *; discriminate);
    try (rewrite E2 in *; discriminate);
    try (rewrite E3 in *; discriminate).
  - rewrite bool_decide_true by (rewrite E1; set_solver).
    cbn. by f_equiv.
  - rewrite bool_decide_true by (rewrite E2; set_solver).
    cbn [app]. rewrite <- Permutation_middle. by f_equiv.
  - rewrite bool_decide_true by (rewrite E3; set_solver).
    cbn [app]. rewrite !app_assoc, <- Permutation_middle, <- !app_assoc.
    by f_equiv.
  - rewrite bool_decide_true by (rewrite E4; set_solver).
    rewrite !app_assoc, <- Permutation_middle, <- !app_assoc. by f_equiv.
  - rewrite bool_decide_false; [done|]. intros Hin.
    repeat (apply elem_of_cons in Hin as [?|Hin]; [done|]).
    by apply elem_of_nil in Hin.
Qed.

Lemma load_well_partitioned l :
  well_partitioned l (finalize_offsets (load_tags l))
                   (reorder (finalize_offsets (load_tags l))).
Proof.
  rewrite reorder_finalize_load, finalize_load.
  set (A := tagged "per" l). set (B := tagged "loc" l).
  set (C := tagged "org" l). set (D := tagged "locorg" l).
  split.
  - apply recognized_perm.
  - intros tg Htg. tag_cases Htg; tag_lookup; eauto.
  - intros tg Htg. tag_cases Htg; unfold block; tag_lookup; tag_proj;
      fold A B C D.
    + rewrite drop_0, take_app_length.
      split_and!; [done|done|apply tagged_tag|apply sorted_by_id_sorted].
    + rewrite drop_app_length, take_app_length.
      split_and!; [done|done|apply tagged_tag|apply sorted_by_id_sorted].
    + rewrite (app_assoc A B), <- length_app, drop_app_length,
        take_app_length.
      split_and!; [done|done|apply tagged_tag|apply sorted_by_id_sorted].
    + rewrite (app_assoc A B), (app_assoc (A ++ B) C), <- !length_app,
        drop_app_length, firstn_all.
      split_and!; [done|done|apply tagged_tag|apply sorted_by_id_sorted].
  - by tag_lookup.
  - intros i Hi. unfold allowed_tags.
    destruct i as [|[|[|i]]]; [| | |lia]; cbn [lookup_total list_lookup_total];
      tag_lookup; tag_proj; fold A B C; lia.
  - tag_lookup. tag_proj. fold A B C D. rewrite !length_app. lia.
  - intros i Hi. rewrite !length_app in Hi. unfold in_block, allowed_tags.
    destruct (decide (i < length A)); [exists "per"|
      destruct (decide (i < length A + length B)); [exists "loc"|
        destruct (decide (i < length A + length B + length C));
          [exists "org"|exists "locorg"]]];
      (split; [set_solver|]);
      tag_lookup; tag_proj; fold A B C D; lia.
  - intros i tg1 tg2 H1 H2. unfold in_block.
    tag_cases H1; tag_cases H2;
      tag_lookup; tag_proj; fold A B C D; intros; first [done | lia].
Qed.
End InitFacts.

Section InitTheorems.
Context {Obj : Type} `{AnnotatedObject Obj}.

Lemma init_Ok_inv (std0 test0 : list Obj) c md em :
  init std0 test0 c md = Ok em →
  (md = "regular" ∨ md = "simple")
  ∧ em = construct std0 test0 c md
  ∧ mode em = md
  ∧ metrics em = ∅
  ∧ s em = finalize_offsets (load_tags std0)
  ∧ t em = finalize_offsets (load_tags test0)
  ∧ std em = reorder (s em)
  ∧ test em = reorder (t em)
  ∧ n_std em = length (std em)
  ∧ n_test em = length (test em)
  ∧ m em = build_matrix c (std em) (test em)
  ∧ calc em = c.
Proof.
  unfold init.
  destruct (String.eqb_spec md "regular") as [E1|E1];
    destruct (String.eqb_spec md "simple") as [E2|E2]; cbn [negb orb];
    intros [= <-]; split_and!; first [reflexivity | by left | by right].
Qed.



(** [self.s[tag]] and [self.t[tag]] exist for every allowed tag. *)
Lemma init_s_lookup (std0 test0 : list Obj) c md em tg :
  init std0 test0 c md = Ok em → tg ∈ allowed_tags →
  s em !! tg = Some (s em !!! tg) ∧ t em !! tg = Some (t em !!! tg).
Proof.
  intros Hinit Htg.
  apply init_Ok_inv in Hinit as (_&_&_&_&Hs&Ht&_).
  rewrite Hs, Ht, !finalize_load. tag_cases Htg; by tag_lookup.
Qed.

(** C9: constructing an [EvaluationMatrix] with a mode other than
    ["regular"] and ["simple"] raises the assertion error of the first
    statement of [__init__] and yields no matrix at all, whatever the
    collections and the scorer; with either of the two modes the
    construction succeeds and records the mode. *)
Theorem init_mode_check (std0 test0 : list Obj) c md :
  (md ≠ "regular" → md ≠ "simple" →
   init std0 test0 c md = Raise AssertionError)
  ∧ (md = "regular" ∨ md = "simple" →
     ∃ em, init std0 test0 c md = Ok em ∧ mode em = md).
Proof.
  unfold init. split.
  - intros H1 H2.
    destruct (String.eqb_spec md "regular"); [done|].
    by destruct (String.eqb_spec md "simple").
  - intros [-> | ->]; cbn; eauto.
Qed.

Lemma init_well_partitioned (std0 test0 : list Obj) c md em :
  init std0 test0 c md = Ok em →
  well_partitioned std0 (s em) (std em)
  ∧ well_partitioned test0 (t em) (test em).
Proof.
  intros Hinit.
  apply init_Ok_inv in Hinit as (_&_&_&_&Hs&Ht&Hstd&Htest&_).
  split.
  - rewrite Hstd, Hs. apply load_well_partitioned.
  - rewrite Htest, Ht. apply load_well_partitioned.
Qed.

(** C7: after construction, on the standard and on the test side
    alike, the reordered array is a rearrangement of exactly the input
    objects with one of the four allowed tags; the block of each tag
    is the slice [start(tag), end(tag)) of the array, contains objects
    of that tag only and is sorted by id; the first block starts at 0,
    each block ends where the next one starts, the last one ends at
    the length of the array, and every index of the array lies in the
    range of exactly one tag. *)
Theorem init_partitions (std0 test0 : list Obj) c md em :
  init std0 test0 c md = Ok em →
  well_partitioned std0 (s em) (std em)
  ∧ well_partitioned test0 (t em) (test em)
  ∧ n_std em = length (std em)
  ∧ n_test em = length (test em).
Proof.
  intros Hinit.
  destruct (init_well_partitioned _ _ _ _ _ Hinit) as [Hs Ht].
  apply init_Ok_inv in Hinit as (_&_&_&_&_&_&_&_&Hn&Hn'&_).
  by split_and!.
Qed.
End InitTheorems.

Lemma init_mode_check_witness :
  init [Fixtures.per 0] [Fixtures.per 0] Fixtures.locorg_calc "strict"
  = Raise AssertionError
  ∧ ∃ em, init [Fixtures.per 0] [Fixtures.per 0] Fixtures.locorg_calc "simple"
          = Ok em ∧ mode em = "simple".
Proof.
  split.
  - apply (proj1 (init_mode_check [Fixtures.per 0] [Fixtures.per 0]
                    Fixtures.locorg_calc "strict")); done.
  - apply (proj2 (init_mode_check [Fixtures.per 0] [Fixtures.per 0]
                    Fixtures.locorg_calc "simple")). by right.
Defined.

Lemma init_partitions_witness :
  init Fixtures.mixed [Fixtures.per 1] (Fixtures.table_calc [] []) "simple"
  = Ok Fixtures.mixed_em
  ∧ well_partitioned Fixtures.mixed (s Fixtures.mixed_em)
                     (std Fixtures.mixed_em)
  ∧ well_partitioned [Fixtures.per 1] (t Fixtures.mixed_em)
                     (test Fixtures.mixed_em)
  ∧ n_std Fixtures.mixed_em = length (std Fixtures.mixed_em)
  ∧ n_test Fixtures.mixed_em = length (test Fixtures.mixed_em).
Proof.
  split; [reflexivity|].
  apply (init_partitions Fixtures.mixed [Fixtures.per 1]
           (Fixtures.table_calc [] []) "simple").
  reflexivity.
Defined.

(** The reordered array of the mixed collection: the object tagged
    ["date"] is gone, persons come first, equal ids keep their order. *)
Example mixed_reordered :
  std Fixtures.mixed_em
  = [ {| Fixtures.m_tag := "per"; Fixtures.m_id := 2 |};
      {| Fixtures.m_tag := "per"; Fixtures.m_id := 5 |};
      {| Fixtures.m_tag := "per"; Fixtures.m_id := 5 |};
      {| Fixtures.m_tag := "org"; Fixtures.m_id := 7 |};
      {| Fixtures.m_tag := "locorg"; Fixtures.m_id := 2 |} ].
Proof. vm_compute. reflexivity. Qed.

(** ** The search *)

Section SearchFacts.
Context {Obj : Type} (self : EvaluationMatrix Obj).
Implicit Types (stds tests cands : list nat) (pairs leaf : pairing).
Implicit Types (fr : frame) (r : search_result).

(** *** The inner loop over the remaining standard indices *)

Lemma scan_std_from curr t stds skip (alt pma : nat) :
  (alt ≤ pma)%nat →
  foldl (λ '(skip_test_object, alt_count, pma) k,
           let skip' :=
             if Qeq_bool (m_at self k t) 1 && Qlt_bool (m_at self curr t) 1
             then true else skip_test_object in
           let alt' :=
             if negb (Qeq_bool (m_at self k t) 0) then S alt_count
             else alt_count in
           let pma' := if (pma <? alt')%nat then alt' else pma in
           (skip', alt', pma'))
        (skip, alt, pma) stds
  = (skip || reserved self curr t stds,
     alt + alternatives self t stds,
     pma `max` (alt + alternatives self t stds)).
Proof.
  unfold reserved, alternatives.
  revert skip alt pma. induction stds as [|k stds IH]; intros skip alt pma Hle.
  - cbn. rewrite orb_false_r. f_equal; [f_equal|]; lia.
  - cbn [foldl existsb List.filter].
    destruct (Qeq_bool (m_at self k t) 1) eqn:E1;
      destruct (Qlt_bool (m_at self curr t) 1) eqn:E2;
      destruct (Qeq_bool (m_at self k t) 0) eqn:E0; cbn [andb orb negb];
      match goal with
      | |- context [(?a <? ?b)%nat] => destruct (Nat.ltb_spec a b)
      end;
      rewrite IH by lia; cbn [length];
      rewrite ?andb_true_r, ?andb_false_r, ?orb_true_r, ?orb_false_r;
      repeat (apply pair_equal_spec; split); try lia;
      by destruct skip.
Qed.

Lemma scan_std_spec curr t stds pma :
  scan_std self curr t stds pma
  = (reserved self curr t stds, alternatives self t stds,
     pma `max` alternatives self t stds).
Proof. unfold scan_std. by rewrite scan_std_from by lia. Qed.

(** *** Keeping the best result *)

Lemma best_of_ext (L L' : pairing → Prop) r :
  (∀ p, L p ↔ L' p) → best_of self L r → best_of self L' r.
Proof.
  intros HL. destruct r as [[f p]|]; cbn.
  - intros (Hp & Hf & Hmax). split_and!; [by apply HL|done|].
    intros p' Hp'. by apply Hmax, HL.
  - intros Hno p Hp. by apply (Hno p), HL.
Qed.

Lemma update_max_best (L1 L2 : pairing → Prop) mr r mr' :
  best_of self L1 mr → best_of self L2 r →
  update_max mr r = Ok mr' →
  best_of self (λ p, L1 p ∨ L2 p) mr'.
Proof.
  destruct mr as [[fm pm]|]; cbn.
  - intros (Hpm & Hfm & Hmax1). destruct r as [[fr pr]|]; [|done].
    cbn. intros (Hpr & Hfr & Hmax2) [= <-].
    destruct (Qlt_bool fm fr) eqn:E; cbn.
    + apply Qlt_bool_iff in E. split_and!; [by right|done|].
      intros p' [Hp'|Hp']; [|by apply Hmax2].
      apply Qle_trans with fm; [by apply Hmax1|by apply Qlt_le_weak].
    + apply Qlt_bool_false in E. split_and!; [by left|done|].
      intros p' [Hp'|Hp']; [by apply Hmax1|].
      apply Qle_trans with fr; [by apply Hmax2|done].
  - intros Hno Hr [= <-]. eapply best_of_ext; [|exact Hr].
    intros p. split; [by right|]. intros [Hp|Hp]; [|done]. by destruct (Hno p).
Qed.

(** *** The loop over the candidates *)

Section Loop.
Variable rec : list nat → pairing → res search_result.
Variables (curr : nat) (stds tests : list nat) (pairs : pairing).

Lemma try_candidate_counts fr t fr' :
  try_candidate self rec curr stds tests pairs fr t = Ok fr' →
  possible_pairs_count fr' = S (possible_pairs_count fr)
  ∧ pair_max_alternatives fr'
    = pair_max_alternatives fr `max` alternatives self t stds.
Proof.
  unfold try_candidate. rewrite scan_std_spec.
  destruct (reserved self curr t stds).
  - by intros [= <-].
  - intros Hb. apply bind_Ok in Hb as (r & _ & Hb).
    apply bind_Ok in Hb as (mr & _ & Hb). by injection Hb as <-.
Qed.

Lemma candidates_counts cands fr fr' :
  for_each (try_candidate self rec curr stds tests pairs) cands fr
  = Ok fr' →
  possible_pairs_count fr' = possible_pairs_count fr + length cands
  ∧ pair_max_alternatives fr'
    = pair_max_alternatives fr
      `max` max_list ((λ t, alternatives self t stds) <$> cands).
Proof.
  revert fr. induction cands as [|t cands IH]; intros fr; cbn.
  - intros [= <-]. split; lia.
  - intros Hb. apply bind_Ok in Hb as (fr1 & H1 & Hb).
    apply try_candidate_counts in H1 as [H1 H2].
    apply IH in Hb as [-> ->]. rewrite H1, H2. split; lia.
Qed.

Lemma candidates_best (L : nat → pairing → Prop) cands :
  (∀ t r, t ∈ cands →
          rec (without t tests) (pairs ++ [(curr, t)]) = Ok r →
          best_of self (L t) r) →
  ∀ (L0 : pairing → Prop) fr fr',
    best_of self L0 (max_res fr) →
    for_each (try_candidate self rec curr stds tests pairs) cands fr
    = Ok fr' →
    best_of self (λ p, L0 p ∨ committed self curr stds L cands p) (max_res fr').
Proof.
  induction cands as [|t cands IH]; intros Hrec L0 fr fr' H0; cbn.
  - intros [= <-]. eapply best_of_ext; [|exact H0].
    intros p. split; [by left|]. intros [?|(t & Ht & _)]; [done|].
    by apply elem_of_nil in Ht.
  - intros Hb. apply bind_Ok in Hb as (fr1 & H1 & Hb).
    assert (Hstep : best_of self
              (λ p, L0 p ∨ (reserved self curr t stds = false ∧ L t p))
              (max_res fr1)).
    { revert H1. unfold try_candidate. rewrite scan_std_spec.
      destruct (reserved self curr t stds) eqn:Eres.
      - intros [= <-]. cbn. eapply best_of_ext; [|exact H0].
        intros p. split; [by left|]. by intros [?|[? _]].
      - intros H1. apply bind_Ok in H1 as (r & Hr & H1).
        apply bind_Ok in H1 as (mr & Hmr & H1). injection H1 as <-.
        cbn in *. apply Hrec in Hr; [|by left].
        eapply best_of_ext;
          [|exact (update_max_best _ _ _ _ _ H0 Hr Hmr)].
        intros p. split; [intros [?|?]|intros [?|[_ ?]]];
          [by left|by right|by left|by right]. }
    eapply IH in Hb; [| |exact Hstep].
    + eapply best_of_ext; [|exact Hb]. intros p. unfold committed.
      split.
      * intros [[?|[? ?]]|(t' & ? & ? & ?)]; [by left|right..].
        -- exists t. split_and!; [by left|done..].
        -- exists t'. split_and!; [by right|done..].
      * intros [?|(t' & [->|?]%elem_of_cons & ? & ?)]; [by do 2 left|..].
        -- left. by right.
        -- right. by exists t'.
    + intros t' r Ht'. apply Hrec. by right.
Qed.
End Loop.

(** *** One call *)

Lemma _recursiveSearch_cons curr rest tests pairs :
  _recursiveSearch self (curr :: rest) tests pairs
  = if (length tests =? 0)%nat
    then Ok (Some (f1 (_evaluate self pairs ""), pairs))
    else
      fr ← candidates_loop self (_recursiveSearch self rest) curr
                           (curr :: rest) tests pairs ;
      if skip_guard fr
      then r ← _recursiveSearch self rest tests pairs ;
           update_max (max_res fr) r
      else Ok (max_res fr).
Proof. reflexivity. Qed.

(** The guard computed from the counters of the loop is the condition
    [skip_allowed] on the candidates. *)
Lemma skip_guard_allowed rec curr stds tests pairs fr :
  candidates_loop self rec curr stds tests pairs = Ok fr →
  skip_guard fr = skip_allowed self curr stds tests.
Proof.
  unfold candidates_loop.
  intros Hb. apply candidates_counts in Hb as [Hc Hp].
  unfold skip_guard, skip_allowed. rewrite Hc, Hp. cbn.
  destruct (_findMatches self curr tests) as [|t [|t' l]]; cbn; [done| |done].
  by rewrite Nat.max_0_r.
Qed.

Lemma elem_of_surviving curr stds tests t :
  t ∈ surviving self curr stds tests
  ↔ t ∈ _findMatches self curr tests ∧ reserved self curr t stds = false.
Proof.
  unfold surviving. rewrite !list_elem_of_In, filter_In.
  by rewrite negb_true_iff.
Qed.

Lemma explored_nil_inv stds tests pairs leaf :
  stds = [] ∨ tests = [] →
  explored self stds tests pairs leaf ↔ leaf = pairs.
Proof.
  intros Hnil. split.
  - inversion 1; subst; try done; by destruct Hnil.
  - intros ->. destruct Hnil as [-> | ->]; constructor.
Qed.

Lemma explored_cons_inv curr rest tests pairs leaf :
  tests ≠ [] →
  explored self (curr :: rest) tests pairs leaf
  ↔ committed self curr (curr :: rest)
      (λ t, explored self rest (without t tests) (pairs ++ [(curr, t)]))
      (_findMatches self curr tests) leaf
    ∨ (skip_allowed self curr (curr :: rest) tests = true
       ∧ explored self rest tests pairs leaf).
Proof.
  intros Hne. split.
  - intros Hex.
    inversion Hex as [| |c r ts ps t' lf Hn Ht Hleaf|c r ts ps lf Hn Hs Hleaf];
      subst; [done| |by right].
    left. exists t'. apply elem_of_surviving in Ht as [? ?]. done.
  - intros [(t & Ht & Hres & Hleaf)|[Hskip Hleaf]].
    + eapply explored_commit; [done| |done]. by apply elem_of_surviving.
    + by apply explored_skip.
Qed.

(** *** The search returns a best leaf of its tree *)

Lemma search_best stds :
  ∀ tests pairs r,
    _recursiveSearch self stds tests pairs = Ok r →
    best_of self (explored self stds tests pairs) r.
Proof.
  induction stds as [|curr rest IH]; intros tests pairs r.
  - cbn. intros [= <-]. cbn. split_and!; [constructor|done|].
    intros p' ->%explored_nil_inv; [apply Qle_refl|by left].
  - rewrite _recursiveSearch_cons. destruct tests as [|t0 tests'].
    { cbn. intros [= <-]. cbn. split_and!; [constructor|done|].
      intros p' ->%explored_nil_inv; [apply Qle_refl|by right]. }
    cbn [length Nat.eqb]. set (tests := t0 :: tests').
    assert (Hne : tests ≠ []) by done.
    intros Hb. apply bind_Ok in Hb as (fr & Hloop & Hb).
    pose proof (skip_guard_allowed _ _ _ _ _ _ Hloop) as Hg.
    unfold candidates_loop in Hloop.
    eapply (candidates_best _ _ _ _ _
              (λ t, explored self rest (without t tests)
                             (pairs ++ [(curr, t)]))
              _ (λ t r _, IH _ _ r) (λ _, False)) in Hloop;
      [|by intros p []].
    rewrite Hg in Hb.
    destruct (skip_allowed self curr (curr :: rest) tests) eqn:Hskip.
    + apply bind_Ok in Hb as (r' & Hr' & Hb). apply IH in Hr'.
      eapply best_of_ext; [|exact (update_max_best _ _ _ _ _ Hloop Hr' Hb)].
      intros p. rewrite explored_cons_inv by done. cbn. tauto.
    + injection Hb as <-. eapply best_of_ext; [|exact Hloop].
      intros p. rewrite explored_cons_inv by done. cbn.
      split; [tauto|]. intros [?|[? _]]; [by right|congruence].
Qed.

Lemma search_leaf stds tests pairs f leaf :
  _recursiveSearch self stds tests pairs = Ok (Some (f, leaf)) →
  explored self stds tests pairs leaf
  ∧ f = overall_f1 self leaf
  ∧ ∀ p, explored self stds tests pairs p → (overall_f1 self p <= f)%Q.
Proof. intros Hs. by apply search_best in Hs. Qed.

Lemma search_none stds tests pairs :
  _recursiveSearch self stds tests pairs = Ok None →
  ∀ p, ¬ explored self stds tests pairs p.
Proof. intros Hs. by apply search_best in Hs. Qed.
End SearchFacts.

(** ** What every explored leaf satisfies *)

Section Invariants.
Context {Obj : Type} (self : EvaluationMatrix Obj).
Implicit Types (stds tests : list nat) (pairs leaf : pairing).

Lemma elem_of_findMatches curr tests t :
  t ∈ _findMatches self curr tests →
  t ∈ tests ∧ Qeq_bool (m_at self curr t) 0 = false.
Proof.
  unfold _findMatches.
  destruct (0 <? length _)%nat; rewrite list_elem_of_In, filter_In;
    intros [Hin Hm]; rewrite <- list_elem_of_In in Hin; split; try done.
  - by apply Qeq_bool_true_nonzero.
  - by apply negb_true_iff.
Qed.

Lemma index_lookup (x : nat) (l : list nat) :
  x ∈ l → l !! index x l = Some x.
Proof.
  induction l as [|y l IH]; [by intros ?%elem_of_nil|].
  intros Hx. cbn. destruct (Nat.eqb_spec y x) as [->|Hne]; [done|].
  apply elem_of_cons in Hx as [->|Hx]; [done|]. by apply IH.
Qed.

Lemma without_subseteq (x : nat) (l : list nat) : without x l ⊆ l.
Proof.
  unfold without. rewrite <- delete_take_drop.
  apply sublist_subseteq, sublist_delete.
Qed.

Lemma without_NoDup (x : nat) (l : list nat) : NoDup l → NoDup (without x l).
Proof.
  unfold without. rewrite <- delete_take_drop. intros Hnd.
  eapply sublist_NoDup; [done|apply sublist_delete].
Qed.

Lemma without_not_elem (x : nat) (l : list nat) :
  NoDup l → x ∈ l → x ∉ without x l.
Proof.
  intros Hnd Hx. apply index_lookup in Hx.
  rewrite <- (take_drop_middle _ _ _ Hx) in Hnd.
  apply NoDup_app in Hnd as (_ & Hdisj & Hnd).
  apply NoDup_cons in Hnd as [Hnot _].
  unfold without. intros [Hin|Hin]%elem_of_app; [|done].
  apply (Hdisj x Hin). by left.
Qed.

(** Only pairs of nonzero priority are committed. *)
Lemma explored_gate stds tests pairs leaf :
  explored self stds tests pairs leaf →
  Forall (λ p, gate_ok self p = true) pairs →
  Forall (λ p, gate_ok self p = true) leaf.
Proof.
  induction 1 as [| |curr rest tests pairs t leaf Hne Ht _ IH
                     |curr rest tests pairs leaf Hne Hs _ IH];
    intros Hpairs; [done|done| |by apply IH].
  apply IH, Forall_app. split; [done|].
  apply Forall_singleton.
  apply elem_of_surviving in Ht as [Ht _].
  apply elem_of_findMatches in Ht as [_ Ht].
  unfold gate_ok. cbn [fst snd]. by rewrite Ht.
Qed.

(** The indices of committed pairs come from the two pools. *)
Lemma explored_from_pools (P1 P2 : nat → Prop) stds tests pairs leaf :
  explored self stds tests pairs leaf →
  Forall P1 stds → Forall P2 tests →
  Forall (λ p, P1 p.1 ∧ P2 p.2) pairs →
  Forall (λ p, P1 p.1 ∧ P2 p.2) leaf.
Proof.
  induction 1 as [| |curr rest tests pairs t leaf Hne Ht _ IH
                     |curr rest tests pairs leaf Hne Hs _ IH];
    intros Hstd Htest Hpairs; [done|done| |].
  - apply Forall_cons in Hstd as [Hcurr Hrest].
    apply elem_of_surviving in Ht as [Ht _].
    apply elem_of_findMatches in Ht as [Ht _].
    apply IH; [done| |].
    + apply Forall_forall. intros x Hx%without_subseteq.
      by eapply Forall_forall in Htest.
    + apply Forall_app. split; [done|]. apply Forall_singleton. cbn.
      split; [done|]. by eapply Forall_forall in Htest.
  - apply Forall_cons in Hstd as [_ Hrest]. by apply IH.
Qed.

(** No index is used twice. *)
Lemma explored_NoDup stds tests pairs leaf :
  explored self stds tests pairs leaf →
  NoDup stds → NoDup tests →
  NoDup pairs.*1 → NoDup pairs.*2 →
  (∀ x, x ∈ pairs.*1 → x ∉ stds) →
  (∀ y, y ∈ pairs.*2 → y ∉ tests) →
  NoDup leaf.*1 ∧ NoDup leaf.*2.
Proof.
  induction 1 as [| |curr rest tests pairs t leaf Hne Ht _ IH
                     |curr rest tests pairs leaf Hne Hs _ IH];
    intros Hstd Htest Hp1 Hp2 Hd1 Hd2; [done|done| |].
  - apply NoDup_cons in Hstd as [Hcurr Hrest].
    apply elem_of_surviving in Ht as [Ht _].
    apply elem_of_findMatches in Ht as [Ht _].
    apply IH; rewrite ?fmap_app; cbn.
    + done.
    + by apply without_NoDup.
    + apply NoDup_app. split_and!; [done| |apply NoDup_singleton].
      intros x Hx ->%list_elem_of_singleton. apply (Hd1 curr Hx). by left.
    + apply NoDup_app. split_and!; [done| |apply NoDup_singleton].
      intros y Hy ->%list_elem_of_singleton. by apply (Hd2 t Hy).
    + intros x [Hx| ->%list_elem_of_singleton]%elem_of_app; [|done].
      intros Hin. apply (Hd1 x Hx). by right.
    + intros y [Hy| ->%list_elem_of_singleton]%elem_of_app.
      * intros Hin%without_subseteq. by apply (Hd2 y Hy).
      * by apply without_not_elem.
  - apply NoDup_cons in Hstd as [_ Hrest].
    apply IH; try done. intros x Hx Hin. apply (Hd1 x Hx). by right.
Qed.

(** *** [findSolution] *)

Lemma findSolution_Ok (em' : EvaluationMatrix Obj) matching :
  findSolution self = Ok (em', matching) →
  ∃ q, _recursiveSearch self (seq 0 (n_std self)) (seq 0 (n_test self)) []
       = Ok (Some (q, matching))
       ∧ em' = record_metrics self matching.
Proof.
  unfold findSolution. intros Hb.
  apply bind_Ok in Hb as ([[q mt]|] & Hs & Hb); [|done].
  injection Hb as <- <-. by exists q.
Qed.

Lemma findSolution_explored (em' : EvaluationMatrix Obj) matching :
  findSolution self = Ok (em', matching) →
  explored self (seq 0 (n_std self)) (seq 0 (n_test self)) [] matching.
Proof.
  intros (q & Hs & _)%findSolution_Ok. by apply search_leaf in Hs as [? _].
Qed.

(** Every index of the returned matching is a position of the
    reordered arrays, so the subscripts [self.m[s, t]], [self.std[s]]
    and [self.test[t]] taken on them are in range. *)
Lemma search_in_range (em' : EvaluationMatrix Obj) matching :
  findSolution self = Ok (em', matching) →
  Forall (λ p, p.1 < n_std self ∧ p.2 < n_test self) matching.
Proof.
  intros Hex%findSolution_explored.
  eapply (explored_from_pools (λ i, i < n_std self) (λ j, j < n_test self))
    in Hex; [done| | |done];
    apply Forall_forall; intros x [_ ?]%elem_of_seq; lia.
Qed.

(** C3: in the matching returned by [findSolution] every standard
    index occurs in at most one pair and every test index occurs in at
    most one pair. *)
Theorem findSolution_no_reuse (em' : EvaluationMatrix Obj) matching :
  findSolution self = Ok (em', matching) →
  NoDup matching.*1 ∧ NoDup matching.*2.
Proof.
  intros Hex%findSolution_explored.
  eapply explored_NoDup in Hex; [done|apply NoDup_seq..| | | |]; cbn;
    try apply NoDup_nil_2; by intros ? ?%elem_of_nil.
Qed.

(** C10: every pair of the matching returned by [findSolution] has a
    nonzero priority in the matrix. *)
Theorem findSolution_nonzero_priority (em' : EvaluationMatrix Obj) matching :
  findSolution self = Ok (em', matching) →
  ∀ i j, (i, j) ∈ matching → ¬ (m_at self i j == 0)%Q.
Proof.
  intros Hex%findSolution_explored i j Hin.
  eapply explored_gate in Hex; [|done].
  eapply Forall_forall in Hex; [|exact Hin].
  unfold gate_ok in Hex. cbn [fst snd] in Hex. apply negb_true_iff in Hex.
  intros Hz%Qeq_bool_iff. congruence.
Qed.

End Invariants.

(** ** The search on concrete inputs *)

Section EmptyInput.
Context {Obj : Type} `{AnnotatedObject Obj}.

Lemma createSimple_zero (a b : nat) :
  (precision (createSimple 0 a b) == 0)%Q
  ∧ (recall (createSimple 0 a b) == 0)%Q
  ∧ (f1 (createSimple 0 a b) == 0)%Q.
Proof.
  unfold createSimple. cbn.
  split_and!; [destruct (b =? 0)%nat|destruct (a =? 0)%nat|]; reflexivity.
Qed.

Lemma search_empty (self : EvaluationMatrix Obj) :
  n_std self = 0 ∨ n_test self = 0 →
  _recursiveSearch self (seq 0 (n_std self)) (seq 0 (n_test self)) []
  = Ok (Some (f1 (_evaluate self [] ""), [])).
Proof.
  intros [-> | ->]; [done|].
  destruct (seq 0 (n_std self)); [done|]. by rewrite _recursiveSearch_cons.
Qed.

(** C8: when no standard object or no test object has an allowed tag,
    [findSolution] returns the empty matching, and the metrics stored
    under ["overall"] and under each allowed tag are built from a
    true-positive total of 0, so that precision, recall and F1 are all
    0 under the formulas of the specification. *)
Theorem findSolution_empty (std0 test0 : list Obj) c md em :
  init std0 test0 c md = Ok em →
  List.filter recognized std0 = [] ∨ List.filter recognized test0 = [] →
  ∃ em', findSolution em = Ok (em', [])
    ∧ ∀ key, key ∈ "overall" :: allowed_tags →
        ∃ mt a b, metrics em' !! key = Some mt
          ∧ mt = createSimple 0 a b
          ∧ (precision mt == 0)%Q ∧ (recall mt == 0)%Q ∧ (f1 mt == 0)%Q.
Proof.
  intros Hinit Hempty.
  destruct (init_well_partitioned _ _ _ _ _ Hinit) as [Hs' Ht'].
  pose proof (wp_members _ _ _ Hs') as Hs.
  pose proof (wp_members _ _ _ Ht') as Ht. clear Hs' Ht'.
  apply init_Ok_inv in Hinit as (_&_&_&Hmt&_&_&_&_&Hn&Hn'&_).
  assert (Hzero : n_std em = 0 ∨ n_test em = 0).
  { destruct Hempty as [E|E]; [left; rewrite Hn|right; rewrite Hn'].
    - rewrite E in Hs. apply Permutation_nil_r in Hs. by rewrite Hs.
    - rewrite E in Ht. apply Permutation_nil_r in Ht. by rewrite Ht. }
  unfold findSolution. rewrite (search_empty em Hzero). cbn [mbind res_bind].
  eexists. split; [reflexivity|]. unfold record_metrics. cbn [metrics].
  rewrite Hmt.
  intros key Hkey. apply elem_of_cons in Hkey as [->|Hkey].
  - exists (createSimple 0 (n_std em) (n_test em)), (n_std em), (n_test em).
    unfold allowed_tags. cbn [foldl]. tag_lookup.
    split_and!; [done|done|apply createSimple_zero..].
  - exists (createSimple 0 (TagData.size (s em !!! key))
                         (TagData.size (t em !!! key))),
           (TagData.size (s em !!! key)), (TagData.size (t em !!! key)).
    unfold allowed_tags. cbn [foldl].
    tag_cases Hkey; tag_lookup;
      (split_and!; [done|done|apply createSimple_zero..]).
Qed.
End EmptyInput.

Import Fixtures.

Lemma findSolution_no_reuse_witness :
  findSolution greedy_em
  = Ok (record_metrics greedy_em [(0, 0); (2, 1)], [(0, 0); (2, 1)])
  ∧ NoDup [(0, 0); (2, 1)].*1 ∧ NoDup [(0, 0); (2, 1)].*2.
Proof.
  assert (Hsol : findSolution greedy_em
                 = Ok (record_metrics greedy_em [(0, 0); (2, 1)],
                       [(0, 0); (2, 1)]))
    by (vm_compute; reflexivity).
  split; [exact Hsol|]. exact (findSolution_no_reuse _ _ _ Hsol).
Defined.

Lemma findSolution_empty_witness :
  init stray [per 1] (table_calc [] []) "regular" = Ok stray_em
  ∧ List.filter recognized stray = []
  ∧ ∃ em', findSolution stray_em = Ok (em', [])
      ∧ ∀ key, key ∈ "overall" :: allowed_tags →
          ∃ mt a b, metrics em' !! key = Some mt
            ∧ mt = createSimple 0 a b
            ∧ (precision mt == 0)%Q ∧ (recall mt == 0)%Q ∧ (f1 mt == 0)%Q.
Proof.
  split_and!; [reflexivity|reflexivity|].
  apply (findSolution_empty stray [per 1] (table_calc [] []) "regular");
    [reflexivity|left; reflexivity].
Defined.

Lemma findSolution_nonzero_priority_witness :
  findSolution sole_em = Ok (record_metrics sole_em [(1, 0)], [(1, 0)])
  ∧ ∀ i j, (i, j) ∈ [(1, 0)] → ¬ (m_at sole_em i j == 0)%Q.
Proof.
  assert (Hsol : findSolution sole_em
                 = Ok (record_metrics sole_em [(1, 0)], [(1, 0)]))
    by (vm_compute; reflexivity).
  split; [exact Hsol|]. exact (findSolution_nonzero_priority _ _ _ Hsol).
Defined.

(** C1: the code misses the optimum.  On three standard and two test
    persons without any perfect pair, standard 0 has two candidates,
    both of which survive; the guard of the skip branch is false, so
    standard 0 is paired in every branch that is searched and takes one
    of the two test objects away from its strong partner.
    [findSolution] returns [[(0, 0); (2, 1)]] with an overall F1 of 2/5,
    while the pairing [[(1, 0); (2, 1)]] uses every index once, pairs
    objects of nonzero priority only, breaks no perfect-match mandate
    and has an overall F1 of 3/5. *)
Theorem findSolution_misses_optimum :
  init [per 0; per 1; per 2] [per 0; per 1]
       (table_calc blocked_prio blocked_prio) "regular" = Ok blocked_em
  ∧ surviving blocked_em 0 [0; 1; 2] [0; 1] = [0; 1]
  ∧ skip_guard
      <$> candidates_loop blocked_em (_recursiveSearch blocked_em [1; 2])
                          0 [0; 1; 2] [0; 1] [] = Ok false
  ∧ findSolution blocked_em
    = Ok (record_metrics blocked_em [(0, 0); (2, 1)], [(0, 0); (2, 1)])
  ∧ admissible blocked_em [(1, 0); (2, 1)] = true
  ∧ Qred (overall_f1 blocked_em [(0, 0); (2, 1)]) = (2 # 5)%Q
  ∧ Qred (overall_f1 blocked_em [(1, 0); (2, 1)]) = (3 # 5)%Q.
Proof. split_and!; [reflexivity|vm_compute; reflexivity..]. Qed.

(** C4: the code raises.  With three standard and two test persons
    where both candidates of standard 0 are imperfect and each is the
    perfect partner of another standard object, every candidate is
    dropped, the guard of the skip branch is false, [_recursiveSearch]
    returns [None] and [findSolution] raises a [TypeError] that does not
    come from the scorer. *)
Theorem findSolution_raises_on_reserved :
  init [per 0; per 1; per 2] [per 0; per 1]
       (table_calc reserved_prio reserved_prio) "regular" = Ok reserved_em
  ∧ _recursiveSearch reserved_em (seq 0 (n_std reserved_em))
                     (seq 0 (n_test reserved_em)) [] = Ok None
  ∧ findSolution reserved_em = Raise TypeError.
Proof. split_and!; [reflexivity|vm_compute; reflexivity..]. Qed.

(** C6: the code leaves the skip branch out although no candidate
    survives.  On the same input the head standard index 0 has the
    candidates 0 and 1, none of which survives the pruning, and the
    guard evaluated after the loop is false: the two candidates were
    counted before they were dropped. *)
Theorem skip_guard_counts_dropped_candidates :
  _findMatches reserved_em 0 [0; 1] = [0; 1]
  ∧ surviving reserved_em 0 [0; 1; 2] [0; 1] = []
  ∧ possible_pairs_count
      <$> candidates_loop reserved_em (_recursiveSearch reserved_em [1; 2])
                          0 [0; 1; 2] [0; 1] [] = Ok 2
  ∧ skip_guard
      <$> candidates_loop reserved_em (_recursiveSearch reserved_em [1; 2])
                          0 [0; 1; 2] [0; 1] [] = Ok false.
Proof. split_and!; vm_compute; reflexivity. Qed.

(** C2: the code drops a mandatory perfect pair.  Standard 0 and test 0
    have priority 1 and neither has another perfect partner, yet the
    matching returned is [[(1, 0)]]: test 0 has a second alternative, so
    the skip branch is searched as well and wins with the higher
    quality of the pair (1, 0). *)
Theorem perfect_pair_dropped :
  (m_at sole_em 0 0 == 1)%Q
  ∧ List.filter (λ k, Qeq_bool (m_at sole_em k 0) 1) (seq 0 (n_std sole_em))
    = [0]
  ∧ List.filter (λ j, Qeq_bool (m_at sole_em 0 j) 1) (seq 0 (n_test sole_em))
    = [0]
  ∧ findSolution sole_em = Ok (record_metrics sole_em [(1, 0)], [(1, 0)]).
Proof. split_and!; vm_compute; reflexivity. Qed.

(** The same happens with a scorer whose quality is its priority:
    standard 0 is the only perfect partner of test 0, and the matching
    returned pairs test 0 with standard 1. *)
Example perfect_pair_dropped_crowded :
  (m_at crowded_em 0 0 == 1)%Q
  ∧ List.filter (λ k, Qeq_bool (m_at crowded_em k 0) 1)
                (seq 0 (n_std crowded_em)) = [0]
  ∧ List.filter (λ j, Qeq_bool (m_at crowded_em 0 j) 1)
                (seq 0 (n_test crowded_em)) = [0]
  ∧ matching_of (findSolution crowded_em) = Ok [(1, 0); (2, 1); (3, 2)].
Proof. split_and!; vm_compute; reflexivity. Qed.

(** ** The mode *)




(** ** The command line *)

Section CommandLine.
Import T1Eval.
Implicit Types (opts : list (string * string)) (st : settings).

Lemma known_cases (o : string) :
  known o → o = "-l" ∨ o = "-h" ∨ o = "-s" ∨ o = "-t".
Proof.
  unfold known. intros Ho.
  repeat (apply elem_of_cons in Ho as [->|Ho]; [tauto|]).
  by apply elem_of_nil in Ho.
Qed.




(** X1: when [-h] is among the options, [main] prints the usage text
    and leaves through [sys.exit()] without evaluating anything,
    whatever the other options are and wherever [-h] stands. *)
Theorem main_help_exits opts :
  Forall known opts.*1 → "-h" ∈ opts.*1 →
  main (inr opts) = (usage, SystemExit None).
Proof.
  intros Hk Hh. unfold main.
  enough (∀ st, scan_opts opts st = inr (usage, SystemExit None)) as ->
    by done.
  induction opts as [|[o a] opts IH]; intros st.
  - by apply elem_of_nil in Hh.
  - cbn [fmap list_fmap fst] in Hk, Hh.
    apply Forall_cons in Hk as [Ho Hk]. cbn [scan_opts].
    destruct (known_cases o Ho) as [-> | [-> | [-> | ->]]]; [|done|..];
      cbn [String.eqb Ascii.eqb Bool.eqb];
      apply elem_of_cons in Hh as [Hh|Hh]; try discriminate Hh;
      by apply IH.
Qed.

End CommandLine.

Lemma main_help_exits_witness :
  T1Eval.main (inr [("-s", "gold"); ("-h", ""); ("-t", "run1")])
  = (T1Eval.usage, T1Eval.SystemExit None).
Proof.
  apply (main_help_exits [("-s", "gold"); ("-h", ""); ("-t", "run1")]).
  - repeat constructor.
  - cbn. by do 2 constructor.
Defined.


(** ** More on construction *)

Section ConstructionMore.
Context {Obj : Type} `{AnnotatedObject Obj}.
Implicit Types (l : list Obj) (x : Obj).

(** X4: the matrix has one row per object of the reordered standard
    array and, in every row, one entry per object of the reordered test
    array. *)
Theorem init_matrix_shape (std0 test0 : list Obj) c md em :
  init std0 test0 c md = Ok em →
  length (m em) = n_std em
  ∧ Forall (λ row, length row = n_test em) (m em).
Proof.
  intros Hinit.
  apply init_Ok_inv in Hinit as (_&_&_&_&_&_&_&_&Hn&Hn'&Hm&_).
  rewrite Hm, Hn, Hn'. unfold build_matrix. split.
  - by rewrite length_fmap.
  - apply Forall_fmap, Forall_forall. intros x _. cbn. by rewrite length_fmap.
Qed.
End ConstructionMore.

Lemma init_matrix_shape_witness :
  length (m crowded_em) = n_std crowded_em
  ∧ Forall (λ row, length row = n_test crowded_em) (m crowded_em).
Proof.
  apply (init_matrix_shape [per 0; per 1; per 2; per 3] [per 0; per 1; per 2]
           (table_calc crowded_prio crowded_prio) "regular").
  reflexivity.
Defined.

(** ** More on the search *)

Section SearchMore.
Context {Obj : Type} (self : EvaluationMatrix Obj).
Implicit Types (stds tests cands : list nat) (pairs leaf matching : pairing).

Lemma StronglySorted_lt_seq (a n : nat) : StronglySorted lt (seq a n).
Proof.
  revert a. induction n as [|n IH]; intros a; cbn; constructor; [done|].
  apply Forall_forall. intros x [? _]%elem_of_seq. lia.
Qed.

(** Pairs are appended in the order in which the standard indices are
    taken from the head of the pool. *)
Lemma explored_sorted stds tests pairs leaf :
  explored self stds tests pairs leaf →
  StronglySorted lt (pairs.*1 ++ stds) →
  StronglySorted lt leaf.*1.
Proof.
  induction 1 as [| |curr rest tests pairs t leaf Hne Ht _ IH
                     |curr rest tests pairs leaf Hne Hs _ IH]; intros Hsorted.
  - by rewrite app_nil_r in Hsorted.
  - by apply StronglySorted_app_1_l in Hsorted.
  - apply IH. by rewrite fmap_app, <- app_assoc.
  - apply IH. apply StronglySorted_app in Hsorted as (Hlt & H1 & H2).
    apply StronglySorted_cons in H2 as [_ H2].
    apply StronglySorted_app. split_and!; [|done..].
    intros x1 x2 Hx1 Hx2. apply Hlt; [done|by right].
Qed.

(** X7: the matching returned by [findSolution] lists its pairs by
    strictly increasing standard index. *)
Theorem findSolution_std_increasing (em' : EvaluationMatrix Obj) matching :
  findSolution self = Ok (em', matching) →
  StronglySorted lt matching.*1.
Proof.
  intros Hex%findSolution_explored.
  eapply explored_sorted; [exact Hex|]. apply StronglySorted_lt_seq.
Qed.

(** X8: the matching returned by [findSolution] has at most as many
    pairs as there are standard objects, and at most as many as there
    are test objects. *)
Theorem findSolution_size (em' : EvaluationMatrix Obj) matching :
  findSolution self = Ok (em', matching) →
  (length matching ≤ n_std self)%nat ∧ (length matching ≤ n_test self)%nat.
Proof.
  intros Hsol.
  pose proof (search_in_range _ _ _ Hsol) as Hrange.
  assert (Hnd : NoDup matching.*1 ∧ NoDup matching.*2).
  { apply findSolution_explored in Hsol.
    eapply explored_NoDup in Hsol; [done|apply NoDup_seq..| | | |]; cbn;
      try apply NoDup_nil_2; by intros ? ?%elem_of_nil. }
  destruct Hnd as [Hnd1 Hnd2].
  assert (Hlen : ∀ (l : list nat) n,
            NoDup l → (∀ x, x ∈ l → x < n) → (length l ≤ n)%nat).
  { intros l n Hl Hlt. rewrite <- (length_seq n 0).
    apply submseteq_length, NoDup_submseteq; [done|].
    intros x Hx%Hlt. apply elem_of_seq. lia. }
  split.
  - rewrite <- (length_fmap fst matching). apply Hlen; [done|].
    intros x ([i j] & -> & Hin)%list_elem_of_fmap.
    eapply Forall_forall in Hrange; [|exact Hin]. cbn in *. lia.
  - rewrite <- (length_fmap snd matching). apply Hlen; [done|].
    intros x ([i j] & -> & Hin)%list_elem_of_fmap.
    eapply Forall_forall in Hrange; [|exact Hin]. cbn in *. lia.
Qed.

Lemma explored_spares_later stds tests pairs leaf :
  explored self stds tests pairs leaf →
  ∀ a, stds = seq a (n_std self - a) →
  Forall (spares_later self) pairs → Forall (spares_later self) leaf.
Proof.
  induction 1 as [| |curr rest tests pairs t leaf Hne Ht _ IH
                     |curr rest tests pairs leaf Hne Hs _ IH];
    intros a Hseq Hpairs; [done|done| |].
  - destruct (n_std self - a) as [|j] eqn:Hj; [done|].
    cbn in Hseq. injection Hseq as -> ->.
    apply (IH (S a)); [f_equal; lia|].
    apply Forall_app. split; [done|]. apply Forall_singleton.
    intros Hlt k Hk. cbn [fst snd] in *.
    apply elem_of_surviving in Ht as [_ Hres].
    unfold reserved in Hres. rewrite Hlt, andb_true_r in Hres.
    destruct (Qeq_bool (m_at self k t) 1) eqn:Ek; [|done].
    assert (Hex : existsb (λ k, Qeq_bool (m_at self k t) 1)
                          (a :: seq (S a) j) = true); [|congruence].
    apply existsb_exists. exists k. split; [|done].
    apply list_elem_of_In. right. apply elem_of_seq. lia.
  - destruct (n_std self - a) as [|j] eqn:Hj; [done|].
    cbn in Hseq. injection Hseq as -> ->.
    apply (IH (S a)); [f_equal; lia|done].
Qed.

(** X9: in the matching returned by [findSolution], a pair of priority
    below 1 never uses a test object that has priority exactly 1 with a
    standard object of greater index: such a test object is left to the
    later standard object. *)
Theorem findSolution_spares_later (em' : EvaluationMatrix Obj) matching :
  findSolution self = Ok (em', matching) →
  ∀ i j k, (i, j) ∈ matching → (m_at self i j < 1)%Q →
           i < k < n_std self → ¬ (m_at self k j == 1)%Q.
Proof.
  intros Hex%findSolution_explored i j k Hin Hlt Hk Heq.
  assert (Hall : Forall (spares_later self) matching).
  { apply (explored_spares_later _ _ _ _ Hex 0); [f_equal; lia|done]. }
  eapply Forall_forall in Hall; [|exact Hin].
  unfold spares_later in Hall. cbn [fst snd] in Hall.
  apply Qlt_bool_iff in Hlt. apply Qeq_bool_iff in Heq.
  specialize (Hall Hlt k Hk). congruence.
Qed.

End SearchMore.

Lemma findSolution_std_increasing_witness :
  findSolution crowded_em
  = Ok (record_metrics crowded_em [(1, 0); (2, 1); (3, 2)],
        [(1, 0); (2, 1); (3, 2)])
  ∧ StronglySorted lt [(1, 0); (2, 1); (3, 2)].*1.
Proof.
  assert (Hsol : findSolution crowded_em
                 = Ok (record_metrics crowded_em [(1, 0); (2, 1); (3, 2)],
                       [(1, 0); (2, 1); (3, 2)]))
    by (vm_compute; reflexivity).
  split; [exact Hsol|]. exact (findSolution_std_increasing _ _ _ Hsol).
Defined.

Lemma findSolution_size_witness :
  findSolution greedy_em
  = Ok (record_metrics greedy_em [(0, 0); (2, 1)], [(0, 0); (2, 1)])
  ∧ (length [(0, 0); (2, 1)] ≤ n_std greedy_em)%nat
  ∧ (length [(0, 0); (2, 1)] ≤ n_test greedy_em)%nat.
Proof.
  assert (Hsol : findSolution greedy_em
                 = Ok (record_metrics greedy_em [(0, 0); (2, 1)],
                       [(0, 0); (2, 1)]))
    by (vm_compute; reflexivity).
  split; [exact Hsol|]. exact (findSolution_size _ _ _ Hsol).
Defined.

Lemma findSolution_spares_later_witness :
  findSolution later_em
  = Ok (record_metrics later_em [(0, 1); (1, 0)], [(0, 1); (1, 0)])
  ∧ (m_at later_em 0 1 < 1)%Q
  ∧ 0 < 1 < n_std later_em
  ∧ (m_at later_em 1 0 == 1)%Q
  ∧ ¬ (m_at later_em 1 1 == 1)%Q.
Proof.
  assert (Hsol : findSolution later_em
                 = Ok (record_metrics later_em [(0, 1); (1, 0)],
                       [(0, 1); (1, 0)]))
    by (vm_compute; reflexivity).
  assert (Hin : (0, 1) ∈ [(0, 1); (1, 0)])
    by (apply elem_of_cons; left; reflexivity).
  assert (Hlt : (m_at later_em 0 1 < 1)%Q) by (vm_compute; reflexivity).
  assert (Hk : 0 < 1 < n_std later_em) by (vm_compute; lia).
  assert (Hone : (m_at later_em 1 0 == 1)%Q) by (vm_compute; reflexivity).
  split; [exact Hsol|]. split; [exact Hlt|]. split; [exact Hk|].
  split; [exact Hone|].
  exact (findSolution_spares_later _ _ _ Hsol 0 1 1 Hin Hlt Hk).
Defined.

(** ** Block sizes *)

Section BlockSizes.
Context {Obj : Type} `{AnnotatedObject Obj}.
(** X13: the sizes of the four tag blocks add up to [n_std] on the
    standard side and to [n_test] on the test side. *)
Theorem init_sizes_add_up (std0 test0 : list Obj) c md em :
  init std0 test0 c md = Ok em →
  n_std em
  = foldr (λ tg acc, TagData.size (s em !!! tg) + acc) 0 allowed_tags
  ∧ n_test em
    = foldr (λ tg acc, TagData.size (t em !!! tg) + acc) 0 allowed_tags.
Proof.
  intros Hinit.
  apply init_Ok_inv in Hinit as (_&_&_&_&Hs&Ht&Hstd&Htest&Hn&Hn'&_).
  rewrite Hn, Hn', Hstd, Htest, Hs, Ht, !reorder_finalize_load, !finalize_load.
  unfold allowed_tags. cbn [foldr]. tag_lookup. tag_proj.
  rewrite !length_app. split; lia.
Qed.
End BlockSizes.

Lemma init_sizes_add_up_witness :
  n_std mixed_em
  = foldr (λ tg acc, TagData.size (s mixed_em !!! tg) + acc) 0 allowed_tags
  ∧ n_test mixed_em
    = foldr (λ tg acc, TagData.size (t mixed_em !!! tg) + acc) 0 allowed_tags.
Proof.
  apply (init_sizes_add_up mixed [per 1] (table_calc [] []) "simple").
  reflexivity.
Defined.

(** ** Perfect pairs in the result *)

Section PerfectPairs.
Context {Obj : Type} (self : EvaluationMatrix Obj).
Implicit Types (stds tests : list nat) (pairs leaf matching : pairing).

Lemma explored_extends stds tests pairs leaf :
  explored self stds tests pairs leaf → ∀ p, p ∈ pairs → p ∈ leaf.
Proof.
  induction 1 as [| |curr rest tests pairs t leaf Hne Ht _ IH
                     |curr rest tests pairs leaf Hne Hs _ IH];
    intros p Hp; [done|done| |by apply IH].
  apply IH, elem_of_app. by left.
Qed.

Lemma findMatches_imperfect curr tests t :
  t ∈ _findMatches self curr tests →
  Qlt_bool (m_at self curr t) 1 = true →
  ∀ j, j ∈ tests → Qeq_bool (m_at self curr j) 1 = false.
Proof.
  unfold _findMatches. intros Ht Hlt j Hj.
  destruct (List.filter (λ t, Qeq_bool (m_at self curr t) 1) tests)
    as [|t' perfect] eqn:Eperf.
  - destruct (Qeq_bool (m_at self curr j) 1) eqn:Ej; [|done].
    assert (Hin : In j (List.filter (λ t, Qeq_bool (m_at self curr t) 1) tests)).
    { apply filter_In. split; [by apply list_elem_of_In|done]. }
    rewrite Eperf in Hin. destruct Hin.
  - cbn [length Nat.ltb Nat.leb] in Ht. rewrite <- Eperf in Ht.
    apply list_elem_of_In, filter_In in Ht as [_ Hone].
    apply Qeq_bool_iff in Hone. apply Qlt_bool_iff in Hlt.
    rewrite Hone in Hlt. discriminate Hlt.
Qed.

Lemma explored_perfect_first stds tests pairs leaf :
  explored self stds tests pairs leaf →
  (∀ j, j < n_test self → j ∈ tests ∨ j ∈ pairs.*2) →
  StronglySorted lt (pairs.*1 ++ stds) →
  ∀ i j j', (i, j) ∈ leaf → (i, j) ∉ pairs →
    Qlt_bool (m_at self i j) 1 = true →
    j' < n_test self → Qeq_bool (m_at self i j') 1 = true →
    ∃ i', i' < i ∧ (i', j') ∈ leaf.
Proof.
  induction 1 as [| |curr rest tests pairs t leaf Hne Ht Hex IH
                     |curr rest tests pairs leaf Hne Hs _ IH];
    intros Hcover Hsorted i j j' Hin Hnew Hlt Hj' Hone; [done|done| |].
  - destruct (decide ((i, j) = (curr, t))) as [[= -> ->]|Hother].
    + apply elem_of_surviving in Ht as [Ht _].
      destruct (Hcover j' Hj') as [Hrem|Htaken].
      * by rewrite (findMatches_imperfect _ _ _ Ht Hlt j' Hrem) in Hone.
      * apply list_elem_of_fmap in Htaken as ([i' j''] & -> & Hp).
        exists i'. split.
        -- apply (StronglySorted_app_1_elem_of _ _ _ i' curr Hsorted).
           ++ apply list_elem_of_fmap. by exists (i', j'').
           ++ by left.
        -- eapply explored_extends; [exact Hex|]. apply elem_of_app. by left.
    + apply (IH) with (j := j); try done.
      * intros j0 Hj0. destruct (Hcover j0 Hj0) as [Hrem|Htaken].
        -- destruct (decide (j0 = t)) as [->|Hne0].
           ++ right. rewrite fmap_app. apply elem_of_app. right. by left.
           ++ left. unfold without.
              apply elem_of_surviving in Ht as [Ht _].
              apply elem_of_findMatches in Ht as [Ht _].
              pose proof (index_lookup t tests Ht) as Hidx.
              rewrite <- (take_drop_middle _ _ _ Hidx) in Hrem.
              apply elem_of_app in Hrem as [?|[?|?]%elem_of_cons];
                [apply elem_of_app; by left|done|apply elem_of_app; by right].
        -- right. rewrite fmap_app. apply elem_of_app. by left.
      * by rewrite fmap_app, <- app_assoc.
      * intros [?|Heq%list_elem_of_singleton]%elem_of_app; [done|].
        by apply Hother.
  - apply IH with (j := j); try done.
    apply StronglySorted_app in Hsorted as (Hlt' & H1 & H2).
    apply StronglySorted_cons in H2 as [_ H2].
    apply StronglySorted_app. split_and!; [|done..].
    intros x1 x2 Hx1 Hx2. apply Hlt'; [done|by right].
Qed.

(** X14: in the matching returned by [findSolution], a standard object
    is paired with a test object of priority below 1 only if every test
    object with which it has priority exactly 1 is paired with a
    standard object of smaller index. *)
Theorem findSolution_perfect_first (em' : EvaluationMatrix Obj) matching :
  findSolution self = Ok (em', matching) →
  ∀ i j j', (i, j) ∈ matching → (m_at self i j < 1)%Q →
            j' < n_test self → (m_at self i j' == 1)%Q →
            ∃ i', i' < i ∧ (i', j') ∈ matching.
Proof.
  intros Hex%findSolution_explored i j j' Hin Hlt Hj' Hone.
  eapply (explored_perfect_first _ _ _ _ Hex) with (j := j); try done.
  - intros j0 Hj0. left. apply elem_of_seq. lia.
  - apply StronglySorted_lt_seq.
  - by intros ?%elem_of_nil.
  - by apply Qlt_bool_iff.
  - by apply Qeq_bool_iff.
Qed.
End PerfectPairs.

Section IsolatedPerfect.
Context {Obj : Type} (self : EvaluationMatrix Obj).
Variables i j : nat.
Hypothesis Hperfect : Qeq_bool (m_at self i j) 1 = true.
Hypothesis Hrow :
  ∀ j', j' < n_test self → j' ≠ j → Qeq_bool (m_at self i j') 1 = false.
Hypothesis Hcol :
  ∀ k, k < n_std self → k ≠ i → Qeq_bool (m_at self k j) 0 = true.

Lemma filter_sole (f : nat → bool) (l : list nat) (x : nat) :
  NoDup l → x ∈ l → f x = true →
  (∀ y, y ∈ l → y ≠ x → f y = false) →
  List.filter f l = [x].
Proof.
  induction l as [|y l IH]; intros Hnd Hx Hfx Hothers.
  { by apply elem_of_nil in Hx. }
  apply NoDup_cons in Hnd as [Hy Hnd]. cbn [List.filter].
  destruct (decide (y = x)) as [->|Hne].
  - rewrite Hfx. f_equal.
    assert (Hnone : ∀ z, In z l → f z = false).
    { intros z Hz%list_elem_of_In. apply Hothers; [by right|].
      intros ->. done. }
    clear -Hnone. induction l as [|z l IH]; [done|]. cbn.
    rewrite (Hnone z) by (by left). apply IH. intros z' Hz'.
    apply Hnone. by right.
  - rewrite (Hothers y) by (done || by left).
    apply elem_of_cons in Hx as [->|Hx]; [done|].
    apply IH; try done. intros z Hz. apply Hothers. by right.
Qed.

Lemma findMatches_isolated tests :
  NoDup tests → Forall (λ j', j' < n_test self) tests → j ∈ tests →
  _findMatches self i tests = [j].
Proof.
  intros Hnd Hrange Hj. unfold _findMatches.
  rewrite (filter_sole _ tests j); try done.
  intros y Hy Hne. apply Hrow; [|done]. by eapply Forall_forall in Hrange.
Qed.

Lemma alternatives_isolated stds :
  NoDup stds → Forall (λ k, k < n_std self) stds → i ∈ stds →
  alternatives self j stds = 1.
Proof.
  intros Hnd Hrange Hi. unfold alternatives.
  rewrite (filter_sole _ stds i); try done.
  - by rewrite (Qeq_bool_true_nonzero _ Hperfect).
  - intros y Hy Hne. rewrite Hcol; [done| |done].
    by eapply Forall_forall in Hrange.
Qed.

Lemma elem_of_without (x y : nat) (l : list nat) :
  x ∈ l → x ≠ y → x ∈ without y l.
Proof.
  unfold without. revert x. induction l as [|z l IH]; intros x Hx Hne.
  { by apply elem_of_nil in Hx. }
  cbn [index]. destruct (Nat.eqb_spec z y) as [->|Hzy].
  - cbn. apply elem_of_cons in Hx as [->|Hx]; [done|].
    by rewrite drop_0.
  - cbn. apply elem_of_cons in Hx as [->|Hx]; [by left|].
    right. by apply IH.
Qed.

Lemma explored_isolated stds tests pairs leaf :
  explored self stds tests pairs leaf →
  NoDup stds → NoDup tests →
  Forall (λ k, k < n_std self) stds →
  Forall (λ j', j' < n_test self) tests →
  (i ∈ stds ∧ j ∈ tests) ∨ (i, j) ∈ pairs →
  (i, j) ∈ leaf.
Proof.
  induction 1 as [| |curr rest tests pairs t leaf Hne Ht _ IH
                     |curr rest tests pairs leaf Hne Hs _ IH];
    intros Hnds Hndt Hrs Hrt Hwhere.
  - destruct Hwhere as [[Hi _]|?]; [by apply elem_of_nil in Hi|done].
  - destruct Hwhere as [[_ Hj]|?]; [by apply elem_of_nil in Hj|done].
  - pose proof Hnds as Hnds'. apply NoDup_cons in Hnds' as [Hcurr Hrest].
    pose proof Hrs as Hrs'. apply Forall_cons in Hrs' as [Hc Hrs'].
    apply elem_of_surviving in Ht as [Ht _].
    apply IH; [done|by apply without_NoDup|done| |].
    { apply Forall_forall. intros x Hx%without_subseteq.
      by eapply Forall_forall in Hrt. }
    destruct Hwhere as [[Hi Hj]|Hin].
    + destruct (decide (curr = i)) as [->|Hne'].
      * rewrite findMatches_isolated in Ht by done.
        apply list_elem_of_singleton in Ht as ->.
        right. apply elem_of_app. right. by left.
      * left. split.
        -- apply elem_of_cons in Hi as [->|Hi]; done.
        -- apply elem_of_without; [done|]. intros ->.
           apply elem_of_findMatches in Ht as [_ Hnz].
           rewrite Hcol in Hnz by done. discriminate Hnz.
    + right. apply elem_of_app. by left.
  - pose proof Hnds as Hnds'. apply NoDup_cons in Hnds' as [Hcurr Hrest].
    pose proof Hrs as Hrs'. apply Forall_cons in Hrs' as [Hc Hrs'].
    apply IH; try done.
    destruct Hwhere as [[Hi Hj]|Hin]; [|by right].
    destruct (decide (curr = i)) as [->|Hne'].
    + unfold skip_allowed in Hs.
      rewrite findMatches_isolated in Hs by done.
      rewrite alternatives_isolated in Hs by done. discriminate Hs.
    + left. split; [|done]. apply elem_of_cons in Hi as [->|Hi]; done.
Qed.
End IsolatedPerfect.

(** X15: the perfect-match mandate, as far as the code keeps it.  If
    standard object [i] and test object [j] have priority exactly 1,
    [i] has priority 1 with no other test object, and [j] has priority
    0 with every other standard object, then every matching returned by
    [findSolution] contains the pair [(i, j)]. *)
Theorem findSolution_keeps_isolated_perfect {Obj : Type}
    (self em' : EvaluationMatrix Obj) matching (i j : nat) :
  findSolution self = Ok (em', matching) →
  i < n_std self → j < n_test self →
  (m_at self i j == 1)%Q →
  (∀ j', j' < n_test self → j' ≠ j → ¬ (m_at self i j' == 1)%Q) →
  (∀ k, k < n_std self → k ≠ i → (m_at self k j == 0)%Q) →
  (i, j) ∈ matching.
Proof.
  intros Hex%findSolution_explored Hi Hj Hone Hrow Hcol.
  eapply (explored_isolated self i j); [| | |exact Hex|..].
  - by apply Qeq_bool_iff.
  - intros j' Hj' Hne. destruct (Qeq_bool (m_at self i j') 1) eqn:E; [|done].
    apply Qeq_bool_iff in E. by destruct (Hrow j' Hj' Hne).
  - intros k Hk Hne. by apply Qeq_bool_iff, Hcol.
  - apply NoDup_seq.
  - apply NoDup_seq.
  - apply Forall_forall. intros x ?%elem_of_seq. lia.
  - apply Forall_forall. intros x ?%elem_of_seq. lia.
  - left. split; apply elem_of_seq; lia.
Qed.

Lemma findSolution_perfect_first_witness :
  findSolution shared_em
  = Ok (record_metrics shared_em [(0, 0); (1, 1)], [(0, 0); (1, 1)])
  ∧ (m_at shared_em 1 1 < 1)%Q ∧ (m_at shared_em 1 0 == 1)%Q
  ∧ ∃ i', i' < 1 ∧ (i', 0) ∈ [(0, 0); (1, 1)].
Proof.
  assert (Hsol : findSolution shared_em
                 = Ok (record_metrics shared_em [(0, 0); (1, 1)],
                       [(0, 0); (1, 1)]))
    by (vm_compute; reflexivity).
  assert (Hlt : (m_at shared_em 1 1 < 1)%Q) by (vm_compute; reflexivity).
  assert (Hone : (m_at shared_em 1 0 == 1)%Q) by (vm_compute; reflexivity).
  assert (Hin : (1, 1) ∈ [(0, 0); (1, 1)])
    by (apply elem_of_cons; right; apply elem_of_cons; left; reflexivity).
  assert (Hj : 0 < n_test shared_em) by (vm_compute; lia).
  split_and!; [exact Hsol|exact Hlt|exact Hone|].
  exact (findSolution_perfect_first _ _ _ Hsol 1 1 0 Hin Hlt Hj Hone).
Defined.

Lemma findSolution_keeps_isolated_perfect_witness :
  findSolution isolated_em
  = Ok (record_metrics isolated_em [(0, 0); (1, 1)], [(0, 0); (1, 1)])
  ∧ (0, 0) ∈ [(0, 0); (1, 1)].
Proof.
  assert (Hsol : findSolution isolated_em
                 = Ok (record_metrics isolated_em [(0, 0); (1, 1)],
                       [(0, 0); (1, 1)]))
    by (vm_compute; reflexivity).
  split; [exact Hsol|].
  apply (findSolution_keeps_isolated_perfect _ _ _ 0 0 Hsol).
  - vm_compute. lia.
  - vm_compute. lia.
  - vm_compute. reflexivity.
  - intros j' Hj' Hne. vm_compute in Hj'.
    destruct j' as [|[|j']]; [congruence| |lia]. vm_compute. discriminate.
  - intros k Hk Hne. vm_compute in Hk.
    destruct k as [|[|k]]; [congruence| |lia]. vm_compute. reflexivity.
Defined.
